(** * cocaine-framework-go: the worker loop and the locator's Resolve

    A shallow embedding of [cocaine12/worker.go] (module [Worker]) and of the
    older locator client (module [Locator]), with the properties of the
    specification that concern them. *)

From Stdlib Require Import ZArith NArith String Ascii Bool Lia.
From stdpp Require Import gmap strings list fin_maps pretty.

Local Open Scope Z_scope.

(** ** Wire data shared by both packages *)

(** A payload element: the self-describing values the codec yields. *)
Inductive value :=
| VNil
| VInt (z : Z)
| VStr (s : string)
| VBytes (b : list Byte.byte).

(** [Message]: the frame [(type, session, payload)]; [Session] is a uint64. *)
Record Message := mkMessage {
  MsgType : Z;
  Session : N;
  Payload : list value
}.

(** Modelled from the spec: the message type constants ([handshakeType] ..
    [chokeType]) are declared in a file that is not at hand; the values are
    those of the wire table, section 6. *)
Definition handshakeType : Z := 0.
Definition heartbeatType : Z := 1.
Definition terminateType : Z := 2.
Definition invokeType : Z := 3.
Definition chunkType : Z := 4.
Definition errorType : Z := 5.
Definition chokeType : Z := 6.


Module Worker.

(** *** Constants (worker.go, lines 10-25) *)

(** [time.Duration] counts nanoseconds. *)
Definition Duration := Z.
Definition Second : Duration := 1000000000.

Definition heartbeatTimeout : Duration := Second * 10.
Definition disownTimeout : Duration := Second * 5.
Definition coreConnectionTimeout : Duration := Second * 5.

Definition ErrorNoEventHandler : Z := 200.
Definition ErrorPanicInHandler : Z := 100.

(** The only error value the loop produces; Go's [nil] error is [None]. *)
Inductive error := ErrDisowned.

(** *** Collaborators the worker is written against *)

(** [*time.Timer]: the duration the timer is armed with, if any, and whether
    its channel [C] holds a tick.  [Stop] and [Reset] leave a tick that is
    already in the channel where it is. *)
Record Timer := mkTimer {
  timer_armed : option Duration;
  timer_tick : bool
}.

Definition NewTimer (d : Duration) : Timer := mkTimer (Some d) false.
Definition Timer_Stop (t : Timer) : Timer := mkTimer None (timer_tick t).
Definition Timer_Reset (t : Timer) (d : Duration) : Timer :=
  mkTimer (Some d) (timer_tick t).

(** The runtime's side of a timer: an armed timer expires, which disarms it
    and puts a tick in its channel. *)
Definition Timer_expire (t : Timer) : option Timer :=
  match timer_armed t with
  | Some _ => Some (mkTimer None true)
  | None => None
  end.

(** [<-t.C]: takes the tick, when there is one. *)
Definition Timer_receive (t : Timer) : option Timer :=
  if timer_tick t then Some (mkTimer (timer_armed t) false) else None.

(** [socketIO]: what has been handed to the write channel, and whether the
    socket is closed. *)
Record socketIO := mkSocket {
  sock_closed : bool;
  sock_written : list Message
}.

(** [select { case conn.Write() <- m: case <-conn.IsClosed(): }] *)
Definition send_or_drop (c : socketIO) (m : Message) : socketIO :=
  if sock_closed c then c
  else mkSocket false (sock_written c ++ [m]).

Definition sock_Close (c : socketIO) : socketIO :=
  mkSocket true (sock_written c).

(** Modelled from the spec: the frame constructors [newHandshake],
    [newHeartbeatMessage] and those of the response stream are not at hand;
    the payloads are those of the wire table, section 6. *)
Definition newHandshake (id : string) : Message :=
  mkMessage handshakeType 0%N [VStr id].
Definition newHeartbeatMessage : Message :=
  mkMessage heartbeatType 0%N [].
Definition newChunk (session : N) (data : list Byte.byte) : Message :=
  mkMessage chunkType session [VBytes data].
Definition newError (session : N) (code : Z) (message : string) : Message :=
  mkMessage errorType session [VInt code; VStr message].
Definition newChoke (session : N) : Message :=
  mkMessage chokeType session [].

(** Modelled from the spec: [getEventName] is not at hand; section 4.4 has it
    take the event name from position 0 of the payload, as a string. *)
Definition getEventName (msg : Message) : option string :=
  match Payload msg with
  | VStr event :: _ => Some event
  | _ => None
  end.

(** Modelled from the spec: the request stream behind the [requestStream]
    interface ([newRequest], [push], [Close]) is not at hand; section 4.3:
    created empty, [push] appends, [Close] marks the stream closed and later
    pushes are dropped. *)
Record requestStream := mkRequest {
  req_queue : list Message;
  req_closed : bool
}.

Definition newRequest : requestStream := mkRequest [] false.

Definition req_push (m : Message) (r : requestStream) : requestStream :=
  if req_closed r then r else mkRequest (req_queue r ++ [m]) false.

Definition req_Close (r : requestStream) : requestStream :=
  mkRequest (req_queue r) true.

(** Modelled from the spec: the response stream behind the [ResponseStream]
    interface ([newResponse], [Write], [ErrorMsg], [Close]) is not at hand.
    Section 4.3: [Write] sends a chunk frame, [ErrorMsg] sends an error frame
    and then finishes the stream, [Close] sends a choke frame and then
    finishes the stream; after finish all three are no-ops.  Sections 4.4
    and 7 and the scenarios S2 and S3 have a choke frame follow the error
    frame on the wire where the worker calls [ErrorMsg] and nothing else, so
    finishing the stream after an error is what sends that choke.  Each
    operation returns the stream and the frames it puts on [fromHandlers]. *)
Record response := mkResponse {
  resp_session : N;
  resp_finished : bool
}.

Definition newResponse (session : N) : response := mkResponse session false.

Definition resp_Write (r : response) (data : list Byte.byte)
  : response * list Message :=
  if resp_finished r then (r, [])
  else (r, [newChunk (resp_session r) data]).

Definition resp_ErrorMsg (r : response) (code : Z) (message : string)
  : response * list Message :=
  if resp_finished r then (r, [])
  else (mkResponse (resp_session r) true,
        [newError (resp_session r) code message;
         newChoke (resp_session r)]).

Definition resp_Close (r : response) : response * list Message :=
  if resp_finished r then (r, [])
  else (mkResponse (resp_session r) true, [newChoke (resp_session r)]).

(** *** Handlers *)

(** What [Request.Read] hands to a handler: data, or an error. *)
Inductive ReadResult :=
| ReadData (data : list Byte.byte)
| ReadError.

(** User code of type [EventHandler]: the calls it makes on its request and
    on its response, ending in a return or in a panic.  [info] is the panic
    value as [%s] prints it; [DoPanicNil] is [panic(nil)]. *)
Inductive prog :=
| DoReturn
| DoPanic (info : string)
| DoPanicNil
| DoRead (k : ReadResult → prog)
| DoWrite (data : list Byte.byte) (k : prog)
| DoErrorMsg (code : Z) (message : string) (k : prog)
| DoClose (k : prog).

Definition EventHandler := prog.
Definition FallbackEventHandler := string → prog.

(** [DefaultFallbackEventHandler] (lines 56-59). *)
Definition DefaultFallbackEventHandler : FallbackEventHandler :=
  fun event =>
    let errMsg := String.append "There is no handler for event " event in
    DoErrorMsg ErrorNoEventHandler errMsg DoReturn.

(** How a function body ends. *)
Inductive ending :=
| Returned
| Panicking (info : string)
| PanickingNil.

(** Running a handler body: [reads] are the results its [Read] calls get (an
    exhausted list reads as an error); the result is how the body ends, the
    response stream it leaves and the frames it has sent. *)
Fixpoint exec (p : prog) (reads : list ReadResult) (r : response)
  : ending * response * list Message :=
  match p with
  | DoReturn => (Returned, r, [])
  | DoPanic info => (Panicking info, r, [])
  | DoPanicNil => (PanickingNil, r, [])
  | DoRead k =>
      match reads with
      | [] => exec (k ReadError) [] r
      | x :: reads' => exec (k x) reads' r
      end
  | DoWrite data k =>
      let '(r1, out) := resp_Write r data in
      let '(e, r2, out') := exec k reads r1 in
      (e, r2, out ++ out')
  | DoErrorMsg code message k =>
      let '(r1, out) := resp_ErrorMsg r code message in
      let '(e, r2, out') := exec k reads r1 in
      (e, r2, out ++ out')
  | DoClose k =>
      let '(r1, out) := resp_Close r in
      let '(e, r2, out') := exec k reads r1 in
      (e, r2, out ++ out')
  end.

(** [recover()]: the panic value when the goroutine is panicking; after
    [panic(nil)] that value is nil, as it is when there is no panic. *)
Definition recover (e : ending) : option string :=
  match e with
  | Panicking info => Some info
  | PanickingNil => None
  | Returned => None
  end.

(** [recoverTrap] (lines 61-66), run as a deferred call: [e] is how the
    function it guards ended.  Calling [recover] stops the panic, so the
    guarded function returns normally. *)
Definition recoverTrap (event : string) (r : response) (e : ending)
  : ending * response * list Message :=
  match recover e with
  | Some recoverInfo =>
      let errMsg :=
        String.append "Error in event: '"
          (String.append event
             (String.append "', exception: " recoverInfo)) in
      let '(r', out) := resp_ErrorMsg r ErrorPanicInHandler errMsg in
      (Returned, r', out)
  | None => (Returned, r, [])
  end.

(** A goroutine started by [onMessage]: the closure of lines 258-262 around a
    registered handler, or [callFallbackHandler] (lines 151-154).  Both hold
    the event name, the request stream (a reference into the heap of
    streams) and the response stream made for the invoke frame. *)
Inductive task :=
| HandlerTask (event : string) (handler : EventHandler)
    (request : nat) (resp : response)
| FallbackTask (event : string) (fallback : FallbackEventHandler)
    (request : nat) (resp : response).

Definition task_event (t : task) : string :=
  match t with
  | HandlerTask event _ _ _ | FallbackTask event _ _ _ => event
  end.

Definition task_request (t : task) : nat :=
  match t with
  | HandlerTask _ _ request _ | FallbackTask _ _ request _ => request
  end.

Definition task_response (t : task) : response :=
  match t with
  | HandlerTask _ _ _ resp | FallbackTask _ _ _ resp => resp
  end.

(** The user code the goroutine calls. *)
Definition task_body (t : task) : prog :=
  match t with
  | HandlerTask _ handler _ _ => handler
  | FallbackTask event fallback _ _ => fallback event
  end.

(** How a goroutine ends: it returns, or an unrecovered panic takes the
    process down. *)
Inductive goroutine_end :=
| Exited
| Crashed (info : string).

(** The goroutine: [defer recoverTrap(event, response)], then the call. *)
Definition run_task (t : task) (reads : list ReadResult)
  : goroutine_end * list Message :=
  let '(e, r, out) := exec (task_body t) reads (task_response t) in
  let '(e', _, out') := recoverTrap (task_event t) r e in
  (match e' with
   | Returned => Exited
   | Panicking info => Crashed info
   | PanickingNil => Crashed EmptyString
   end,
   out ++ out').

(** The response stream as the goroutine leaves it. *)
Definition task_final_response (t : task) (reads : list ReadResult)
  : response :=
  let '(e, r, _) := exec (task_body t) reads (task_response t) in
  (recoverTrap (task_event t) r e).1.2.

(** *** The worker (lines 70-91) *)

(** The fields of the Go struct ([fromHandlers] is an unbuffered channel and
    holds no state), followed by what the struct points to or starts:
    [streams] is the heap of request streams, a session-table entry being an
    index into it; [tasks] are the goroutines started so far; [printed] are
    the messages the default case of [onMessage] has reported. *)
Record Worker := mkWorker {
  conn : socketIO;
  id : string;
  heartbeatTimer : Timer;
  disownTimer : Timer;
  sessions : gmap N nat;
  handlers : gmap string EventHandler;
  stopped : bool;
  fallbackHandler : FallbackEventHandler;
  streams : list requestStream;
  tasks : list task;
  printed : list Message
}.

Definition set_conn (c : socketIO) (w : Worker) : Worker :=
  mkWorker c (id w) (heartbeatTimer w) (disownTimer w) (sessions w)
    (handlers w) (stopped w) (fallbackHandler w) (streams w) (tasks w)
    (printed w).
Definition set_heartbeatTimer (t : Timer) (w : Worker) : Worker :=
  mkWorker (conn w) (id w) t (disownTimer w) (sessions w)
    (handlers w) (stopped w) (fallbackHandler w) (streams w) (tasks w)
    (printed w).
Definition set_disownTimer (t : Timer) (w : Worker) : Worker :=
  mkWorker (conn w) (id w) (heartbeatTimer w) t (sessions w)
    (handlers w) (stopped w) (fallbackHandler w) (streams w) (tasks w)
    (printed w).
Definition set_sessions (m : gmap N nat) (w : Worker) : Worker :=
  mkWorker (conn w) (id w) (heartbeatTimer w) (disownTimer w) m
    (handlers w) (stopped w) (fallbackHandler w) (streams w) (tasks w)
    (printed w).
Definition set_handlers (h : gmap string EventHandler) (w : Worker) : Worker :=
  mkWorker (conn w) (id w) (heartbeatTimer w) (disownTimer w) (sessions w)
    h (stopped w) (fallbackHandler w) (streams w) (tasks w) (printed w).
Definition set_stopped (b : bool) (w : Worker) : Worker :=
  mkWorker (conn w) (id w) (heartbeatTimer w) (disownTimer w) (sessions w)
    (handlers w) b (fallbackHandler w) (streams w) (tasks w) (printed w).
Definition set_fallbackHandler (f : FallbackEventHandler) (w : Worker)
  : Worker :=
  mkWorker (conn w) (id w) (heartbeatTimer w) (disownTimer w) (sessions w)
    (handlers w) (stopped w) f (streams w) (tasks w) (printed w).
Definition set_streams (l : list requestStream) (w : Worker) : Worker :=
  mkWorker (conn w) (id w) (heartbeatTimer w) (disownTimer w) (sessions w)
    (handlers w) (stopped w) (fallbackHandler w) l (tasks w) (printed w).
Definition set_tasks (l : list task) (w : Worker) : Worker :=
  mkWorker (conn w) (id w) (heartbeatTimer w) (disownTimer w) (sessions w)
    (handlers w) (stopped w) (fallbackHandler w) (streams w) l (printed w).
Definition set_printed (l : list Message) (w : Worker) : Worker :=
  mkWorker (conn w) (id w) (heartbeatTimer w) (disownTimer w) (sessions w)
    (handlers w) (stopped w) (fallbackHandler w) (streams w) (tasks w) l.

(** [sendHandshake] (lines 294-299). *)
Definition sendHandshake (w : Worker) : Worker :=
  set_conn (send_or_drop (conn w) (newHandshake (id w))) w.

(** [newWorker] (lines 108-138): its only inputs are the connection and the
    worker id.  Both timers are created and stopped at once. *)
Definition newWorker (c : socketIO) (id : string) : Worker :=
  let w :=
    mkWorker c id
      (NewTimer heartbeatTimeout) (NewTimer disownTimeout)
      ∅ ∅ false DefaultFallbackEventHandler [] [] [] in
  let w := set_disownTimer (Timer_Stop (disownTimer w)) w in
  let w := set_heartbeatTimer (Timer_Stop (heartbeatTimer w)) w in
  sendHandshake w.

(** [On] (lines 141-143). *)
Definition On (event : string) (handler : EventHandler) (w : Worker)
  : Worker :=
  set_handlers (<[event := handler]> (handlers w)) w.

(** [SetFallbackHandler] (lines 146-148). *)
Definition SetFallbackHandler (handler : FallbackEventHandler) (w : Worker)
  : Worker :=
  set_fallbackHandler handler w.

(** [isStopped] (lines 176-183): whether the [stopped] channel is closed. *)
Definition isStopped (w : Worker) : bool := stopped w.

(** [Stop] (lines 167-174). *)
Definition Stop (w : Worker) : Worker :=
  if isStopped w then w
  else set_conn (sock_Close (conn w)) (set_stopped true w).

(** [onDisown] and [onTerminate] (lines 283-289). *)
Definition onDisown (w : Worker) : Worker := Stop w.
Definition onTerminate (w : Worker) : Worker := Stop w.

(** [onHeartbeat] (lines 301-311). *)
Definition onHeartbeat (w : Worker) : Worker :=
  let w := set_conn (send_or_drop (conn w) newHeartbeatMessage) w in
  let w := set_disownTimer (Timer_Reset (disownTimer w) disownTimeout) w in
  set_heartbeatTimer (Timer_Reset (heartbeatTimer w) heartbeatTimeout) w.

(** [onMessage] (lines 223-279). *)
Definition onMessage (w : Worker) (msg : Message) : Worker :=
  if decide (MsgType msg = chunkType) then
    match sessions w !! Session msg with
    | Some reqStream =>
        set_streams (alter (req_push msg) reqStream (streams w)) w
    | None => w
    end
  else if decide (MsgType msg = chokeType) then
    match sessions w !! Session msg with
    | Some reqStream =>
        let w := set_streams (alter req_Close reqStream (streams w)) w in
        set_sessions (delete (Session msg) (sessions w)) w
    | None => w
    end
  else if decide (MsgType msg = invokeType) then
    let currentSession := Session msg in
    match getEventName msg with
    | None => w
    | Some event =>
        let responseStream := newResponse currentSession in
        let requestStream := length (streams w) in
        let w := set_streams (streams w ++ [newRequest]) w in
        let w :=
          set_sessions (<[currentSession := requestStream]> (sessions w)) w in
        match handlers w !! event with
        | None =>
            set_tasks
              (tasks w ++
               [FallbackTask event (fallbackHandler w) requestStream
                  responseStream]) w
        | Some handler =>
            set_tasks
              (tasks w ++
               [HandlerTask event handler requestStream responseStream]) w
        end
    end
  else if decide (MsgType msg = heartbeatType) then
    set_disownTimer (Timer_Stop (disownTimer w)) w
  else if decide (MsgType msg = terminateType) then
    onTerminate w
  else
    set_printed (printed w ++ [msg]) w.

(** *** The loop (lines 185-221) *)

(** What happens around one pass of the [select]: the case taken, with what
    it receives, or something done to the worker from outside the loop: a
    timer expiring, or the embedding application calling [Stop]. *)
Inductive event :=
| ConnRead (msg : option Message)   (* [msg, ok := <-w.conn.Read()], [None] when [!ok] *)
| HeartbeatTimerFired               (* [<-w.heartbeatTimer.C] *)
| DisownTimerFired                  (* [<-w.disownTimer.C] *)
| FromHandlers (outcoming : Message) (* [outcoming := <-w.fromHandlers] *)
| StoppedClosed                     (* [<-w.stopped] *)
| HeartbeatTimerExpired
| DisownTimerExpired
| ExternalStop.

Inductive step_result :=
| Continue (w : Worker) (err : option error)
| Exit (err : option error)
| NotReady.

(** One event.  For the cases of the [select] this is one pass of the [for]
    loop; a case whose channel has nothing to deliver is [NotReady]. *)
Definition loop_step (w : Worker) (err : option error) (ev : event)
  : step_result :=
  match ev with
  | ConnRead (Some msg) => Continue (onMessage w msg) err
  | ConnRead None => Continue w err
  | HeartbeatTimerFired =>
      match Timer_receive (heartbeatTimer w) with
      | Some t => Continue (onHeartbeat (set_heartbeatTimer t w)) err
      | None => NotReady
      end
  | DisownTimerFired =>
      match Timer_receive (disownTimer w) with
      | Some t => Continue (onDisown (set_disownTimer t w)) (Some ErrDisowned)
      | None => NotReady
      end
  | FromHandlers outcoming =>
      Continue (set_conn (send_or_drop (conn w) outcoming) w) err
  | StoppedClosed => if stopped w then Exit err else NotReady
  | HeartbeatTimerExpired =>
      match Timer_expire (heartbeatTimer w) with
      | Some t => Continue (set_heartbeatTimer t w) err
      | None => NotReady
      end
  | DisownTimerExpired =>
      match Timer_expire (disownTimer w) with
      | Some t => Continue (set_disownTimer t w) err
      | None => NotReady
      end
  | ExternalStop => Continue (Stop w) err
  end.

Inductive run_result :=
| Running (w : Worker) (err : option error)
| Finished (err : option error)
| Stuck.

Fixpoint loop_from (w : Worker) (err : option error) (evs : list event)
  : run_result :=
  match evs with
  | [] => Running w err
  | ev :: evs' =>
      match loop_step w err ev with
      | Continue w' err' => loop_from w' err' evs'
      | Exit e => Finished e
      | NotReady => Stuck
      end
  end.

(** [loop]: [var err error], the first heartbeat, then the passes. *)
Definition loop (w : Worker) (evs : list event) : run_result :=
  loop_from (onHeartbeat w) None evs.

(** [Run] (lines 158-164). *)
Definition Run (hs : gmap string EventHandler) (w : Worker)
  (evs : list event) : run_result :=
  loop (map_fold On w hs) evs.

Definition is_disown (ev : event) : bool :=
  match ev with DisownTimerFired => true | _ => false end.

Definition is_terminate (ev : event) : bool :=
  match ev with
  | ConnRead (Some msg) => bool_decide (MsgType msg = terminateType)
  | _ => false
  end.

Definition is_stop_call (ev : event) : bool :=
  match ev with ExternalStop => true | _ => false end.

(** *** State predicates used by the properties *)

(** Both timers armed, each with its constant. *)
Definition both_armed (w : Worker) : Prop :=
  timer_armed (disownTimer w) = Some disownTimeout ∧
  timer_armed (heartbeatTimer w) = Some heartbeatTimeout.

(** Every entry of the session table refers to an allocated stream. *)
Definition heap_ok (w : Worker) : Prop :=
  ∀ (s : N) (r : nat), sessions w !! s = Some r → (r < length (streams w))%nat.

(** The only durations a timer is ever armed with. *)
Definition timers_inv (w : Worker) : Prop :=
  (∀ d, timer_armed (heartbeatTimer w) = Some d → d = heartbeatTimeout) ∧
  (∀ d, timer_armed (disownTimer w) = Some d → d = disownTimeout).

End Worker.

Module Locator.

(** *** The older locator client (package cocaine) *)

Definition DEFAULT_LOCATOR_PORT : Z := 10053.

Record Endpoint := mkEndpoint {
  Host : string;
  Port : Z
}.

Record ResolveResult := mkResolveResult {
  success : bool;
  endpoint : Endpoint;
  Version : Z;
  API : gmap Z string
}.

(** [var res ResolveResult]: Go's zero value. *)
Definition zero_ResolveResult : ResolveResult :=
  mkResolveResult false (mkEndpoint EmptyString 0) 0 ∅.

Definition set_success (b : bool) (r : ResolveResult) : ResolveResult :=
  mkResolveResult b (endpoint r) (Version r) (API r).

(** What [codec.NewDecoderBytes(chunk, h).Decode(&res)] does to [res]: it
    fills it in and returns nil, or returns an error with [res] as far as it
    was filled in, or panics.  The decoder belongs to the codec library and
    is an input of the model. *)
Inductive decoded :=
| DecodeOk (res : ResolveResult)
| DecodeFailed (res : ResolveResult) (err : string)
| DecodePanicked (info : string).

Inductive log_line :=
| LogDefer (info : string)             (* [log.Println("defer", err)] *)
| LogUnpackError (err : string).       (* [log.Println("unpack chunk error", err)] *)

(** [ServiceMethod{MessageInfo{0, 0}, []interface{}{name}}], the request. *)
Record ServiceMethod := mkServiceMethod {
  sm_Number : Z;
  sm_Channel : Z;
  sm_Data : list value
}.

(** An unpacked answer, read through [GetTypeID] and [GetPayload]. *)
Record item := mkItem {
  GetTypeID : Z;
  GetPayload : list value
}.

(** Modelled from the spec: the constants [CHUNK] and [CHOKE] are declared in
    a file that is not at hand; the values are those of the wire table,
    section 6. *)
Definition CHUNK : Z := chunkType.
Definition CHOKE : Z := chokeType.

(** What the channel [Out] has seen. *)
Inductive chan_event :=
| ChanSend (r : ResolveResult)
| ChanClose.

(** The state of the goroutine of [Resolve] between two items. *)
Record resolve_state := mkState {
  resolveresult : ResolveResult;
  closed : bool;
  logged : list log_line
}.

Inductive resolve_outcome :=
| Yielded (r : ResolveResult) (log : list log_line)   (* [Out <- resolveresult] *)
| AwaitingAnswer (st : resolve_state)                 (* blocked in [<-Read()] *)
| Died (log : list log_line).                         (* unrecovered panic *)

(** Which items are handled: every list up to the first one holding a choke,
    that one in full. *)
Definition is_choke (it : item) : bool := bool_decide (GetTypeID it = CHOKE).
Definition is_chunk (it : item) : bool := bool_decide (GetTypeID it = CHUNK).

Fixpoint handled (answers : list (list item)) : list item :=
  match answers with
  | [] => []
  | msgs :: answers' =>
      if existsb is_choke msgs then msgs else msgs ++ handled answers'
  end.

(** The byte payloads of the chunk frames of a list of items, in order. *)
Fixpoint chunks_of (items : list item) : list (list Byte.byte) :=
  match items with
  | [] => []
  | it :: items' =>
      if is_chunk it then
        match GetPayload it with
        | VBytes chunk :: _ => chunk :: chunks_of items'
        | _ => chunks_of items'
        end
      else chunks_of items'
  end.

(** A chunk frame is well formed when its payload starts with bytes. *)
Definition chunk_ok (it : item) : bool :=
  if is_chunk it then
    match GetPayload it with
    | VBytes _ :: _ => true
    | _ => false
    end
  else true.

Section WithDecoder.

Variable Decode : list Byte.byte → decoded.

(** [unpackchunk] (lines 50-62).  The codec cannot reach the unexported
    field [success], which keeps its zero value.  A recovered panic makes
    the function return the zero value of its result type. *)
Definition unpackchunk (chunk : list Byte.byte)
  : ResolveResult * list log_line :=
  match Decode chunk with
  | DecodeOk res => (set_success false res, [])
  | DecodeFailed res err => (set_success false res, [LogUnpackError err])
  | DecodePanicked info => (zero_ResolveResult, [LogDefer info])
  end.

(** The body of [for _, item := range msgs] (lines 77-83).  [None]: the
    index or the type assertion of [item.GetPayload()[0].([]byte)] panics. *)
Definition on_item (st : resolve_state) (it : item) : option resolve_state :=
  if decide (GetTypeID it = CHUNK) then
    match GetPayload it with
    | VBytes chunk :: _ =>
        let '(res, lg) := unpackchunk chunk in
        Some (mkState (set_success true res) (closed st) (logged st ++ lg))
    | _ => None
    end
  else if decide (GetTypeID it = CHOKE) then
    Some (mkState (resolveresult st) true (logged st))
  else Some st.

Fixpoint on_msgs (st : resolve_state) (msgs : list item)
  : option resolve_state :=
  match msgs with
  | [] => Some st
  | it :: msgs' =>
      match on_item st it with
      | Some st' => on_msgs st' msgs'
      | None => None
      end
  end.

(** What handling one list of items does to the state. *)
Definition after_items (st : resolve_state) (items : list item)
  : resolve_state :=
  mkState
    (match last (chunks_of items) with
     | Some chunk => set_success true (unpackchunk chunk).1
     | None => resolveresult st
     end)
    (closed st || existsb is_choke items)
    (logged st ++ flat_map (fun chunk => (unpackchunk chunk).2)
                    (chunks_of items)).

(** What has been logged when an item of [msgs] makes the goroutine panic:
    the lines of the items handled before it count. *)
Fixpoint log_at_panic (st : resolve_state) (msgs : list item)
  : list log_line :=
  match msgs with
  | [] => logged st
  | it :: msgs' =>
      match on_item st it with
      | Some st' => log_at_panic st' msgs'
      | None => logged st
      end
  end.

(** [for !closed] (lines 73-85), then the send (line 86).  [answers] are the
    lists [Feed] returns, one per read of the socket. *)
Fixpoint resolve_loop (st : resolve_state) (answers : list (list item))
  : resolve_outcome :=
  match answers with
  | [] => AwaitingAnswer st
  | msgs :: answers' =>
      match on_msgs st msgs with
      | None => Died (log_at_panic st msgs)
      | Some st' =>
          if closed st' then Yielded (resolveresult st') (logged st')
          else resolve_loop st' answers'
      end
  end.

(** [Resolve] (lines 64-89): the request written to the socket, and how the
    goroutine fares on the answers. *)
Definition Resolve (name : string) (answers : list (list item))
  : ServiceMethod * resolve_outcome :=
  let resolveresult := set_success false zero_ResolveResult in
  let msg := mkServiceMethod 0 0 [VStr name] in
  (msg, resolve_loop (mkState resolveresult false []) answers).

(** The events on the channel [Resolve] returns. *)
Definition Out_events (name : string) (answers : list (list item))
  : list chan_event :=
  match snd (Resolve name answers) with
  | Yielded r _ => [ChanSend r]
  | _ => []
  end.

End WithDecoder.

(** The result as the specification words it: the decoding of the last chunk
    that decodes without error, with [success] set; a chunk that fails to
    decode is ignored; [success] stays false until a chunk has decoded. *)
Definition spec_result (Decode : list Byte.byte → decoded)
    (items : list item) : ResolveResult :=
  fold_left
    (fun acc chunk =>
       match Decode chunk with
       | DecodeOk res => set_success true res
       | _ => acc
       end)
    (chunks_of items) zero_ResolveResult.

End Locator.

(** ** Concrete workers, frames and answers used in the examples *)

Module Examples.
Import Worker.

Definition sock0 : socketIO := mkSocket false [].

(** A worker as [newWorker] makes it. *)
Definition w0 : Worker := newWorker sock0 "uuid".

(** A handler that reads one message, writes it back and closes. *)
Definition echo : EventHandler :=
  DoRead (fun r =>
    match r with
    | ReadData data => DoWrite data (DoClose DoReturn)
    | ReadError => DoClose DoReturn
    end).

(** A handler that reads one message and panics with the text boom. *)
Definition explode : EventHandler := DoRead (fun _ => DoPanic "boom").


(** A handler that closes its response and then panics. *)
Definition close_then_explode : EventHandler := DoClose (DoPanic "boom").

Definition hs0 : gmap string EventHandler :=
  <["echo" := echo]> (<["explode" := explode]> ∅).

Definition newInvoke (session : N) (event : string) : Message :=
  mkMessage invokeType session [VStr event].

(** An invoke frame whose payload holds no event name. *)
Definition corrupted : Message := mkMessage invokeType 9%N [VNil].

Definition terminate : Message :=
  mkMessage terminateType 0%N [VInt 0; VStr "bye"].

(** The goroutine [onMessage] starts for an invoke of explode on session 5,
    and the one it starts for an invoke of an event nobody handles on
    session 3. *)
Definition explode_task : task :=
  HandlerTask "explode" explode 0 (newResponse 5).
Definition missing_task : task :=
  FallbackTask "missing" DefaultFallbackEventHandler 0 (newResponse 3).

(** The worker with the handlers of [hs0], after an invoke of echo on
    session 7. *)
Definition w7 : Worker :=
  onMessage (On "echo" echo (On "explode" explode w0)) (newInvoke 7 "echo").

(** A decoder for the examples: an empty chunk is an error that leaves the
    record untouched, any other chunk decodes to host h, port 9, the version
    its first byte gives, and the method table 0 -> m. *)
Definition decode_svc (chunk : list Byte.byte) : Locator.decoded :=
  match chunk with
  | [] => Locator.DecodeFailed Locator.zero_ResolveResult "EOF"
  | b :: _ =>
      Locator.DecodeOk
        (Locator.mkResolveResult false (Locator.mkEndpoint "h" 9)
           (Z.of_N (Byte.to_N b)) {[ 0 := "m"%string ]})
  end.

Definition chunk_item (chunk : list Byte.byte) : Locator.item :=
  Locator.mkItem Locator.CHUNK [VBytes chunk].
Definition choke_item : Locator.item := Locator.mkItem Locator.CHOKE [].

End Examples.

(** ** Further state predicates and event classes of the worker *)

Module WorkerInv.
Import Worker.

Definition is_heartbeat_fire (ev : event) : bool :=
  match ev with HeartbeatTimerFired => true | _ => false end.

(** The events that close [stopped]: the disown case, a call of [Stop], a
    terminate frame. *)
Definition is_stopping (ev : event) : bool :=
  is_disown ev || is_stop_call ev || is_terminate ev.

(** Goroutines and request streams go in pairs: the i-th goroutine started
    reads the i-th stream allocated, and the stream a session is bound to is
    read by a goroutine whose response stream was made for that session. *)
Definition sessions_owned (w : Worker) : Prop :=
  length (tasks w) = length (streams w) ∧
  (∀ (i : nat) (t : task), tasks w !! i = Some t → task_request t = i) ∧
  (∀ (s : N) (r : nat), sessions w !! s = Some r →
     ∃ t : task, tasks w !! r = Some t ∧ task_response t = newResponse s).

(** What the events of a run hand to the socket while it is open: the
    frames received from handlers, and a heartbeat for every fire of the
    heartbeat timer. *)
Definition wire_of (evs : list event) : list Message :=
  flat_map
    (fun ev =>
       match ev with
       | FromHandlers outcoming => [outcoming]
       | HeartbeatTimerFired => [newHeartbeatMessage]
       | _ => []
       end)
    evs.

(** The frames of [msgs] that belong to a session bound to the stream [r],
    in the order of arrival. *)
Definition frames_for (w : Worker) (r : nat) (msgs : list Message)
  : list Message :=
  filter (fun m => sessions w !! Session m = Some r) msgs.



(** A stopped worker has closed its socket. *)
Definition stop_closes (w : Worker) : Prop :=
  stopped w = true → sock_closed (conn w) = true.

(** The disown timer is neither armed nor holding a tick. *)
Definition disown_idle (w : Worker) : Prop :=
  timer_armed (disownTimer w) = None ∧ timer_tick (disownTimer w) = false.

End WorkerInv.

(** ** The rest of the older locator client *)

Module LocatorApi.
Import Locator.

(** [Endpoint.AsString] (lines 18-20): [fmt.Sprintf("%s:%d", Host, Port)]. *)
Definition AsString (e : Endpoint) : string :=
  String.append (Host e) (String.append ":" (pretty (Port e))).

(** Whether a string holds a colon. *)
Fixpoint has_colon (s : string) : bool :=
  match s with
  | EmptyString => false
  | String c s' => bool_decide (c = ":"%char) || has_colon s'
  end.

Section WithSocket.

(** [NewASocket] and the socket it returns belong to a file that is not at
    hand; they are inputs of the model. *)
Variable ASocket : Type.
Variable socket_error : Type.
Variable NewASocket :
  string → string → Worker.Duration → ASocket + socket_error.

(** The endpoint [NewLocator] connects to (lines 35-41). *)
Definition locator_endpoint (args : list value) : string :=
  let endpoint := "localhost:10053"%string in
  if decide (length args = 1%nat) then
    match args with
    | VStr _endpoint :: _ => _endpoint
    | _ => endpoint
    end
  else endpoint.

(** [NewLocator] (lines 34-48): the locator's socket, or the error. *)
Definition NewLocator (args : list value) : ASocket + socket_error :=
  match NewASocket "tcp" (locator_endpoint args) (Worker.Second * 5) with
  | inr err => inr err
  | inl sock => inl sock
  end.

End WithSocket.

End LocatorApi.

(** ** Properties of the worker *)

Module WorkerProps.
Import Worker.

(** *** Strings *)




(** *** The heartbeat routine *)

Lemma onHeartbeat_armed (w : Worker) : both_armed (onHeartbeat w).
Proof. by split. Qed.

Lemma onHeartbeat_conn (w : Worker) :
  conn (onHeartbeat w) = send_or_drop (conn w) newHeartbeatMessage.
Proof. reflexivity. Qed.

(** C7. The first heartbeat of [loop] and the heartbeat sent on every fire of
    the heartbeat timer hand a heartbeat frame to the socket and leave the
    disown timer armed with [disownTimeout] and the heartbeat timer armed
    with [heartbeatTimeout]; an inbound heartbeat frame leaves the disown
    timer disarmed. *)
Theorem heartbeat_disown_timers (w : Worker) (err : option error)
    (session : N) (payload : list value) :
  (∃ w1, loop w [] = Running w1 None ∧ both_armed w1 ∧
         conn w1 = send_or_drop (conn w) newHeartbeatMessage) ∧
  match loop_step w err HeartbeatTimerFired with
  | Continue w1 err1 =>
      both_armed w1 ∧ err1 = err ∧
      conn w1 = send_or_drop (conn w) newHeartbeatMessage
  | Exit _ => False
  | NotReady => timer_tick (heartbeatTimer w) = false
  end ∧
  timer_armed
    (disownTimer (onMessage w (mkMessage heartbeatType session payload)))
  = None.
Proof.
  split; [|split].
  - exists (onHeartbeat w). split; [reflexivity|].
    split; [apply onHeartbeat_armed | apply onHeartbeat_conn].
  - unfold loop_step, Timer_receive.
    destruct (timer_tick (heartbeatTimer w)) eqn:Htick; [|reflexivity].
    split; [apply onHeartbeat_armed|]. split; reflexivity.
  - reflexivity.
Qed.

(** *** One inbound frame and the session table *)

(** What [onMessage] does on an invoke frame that names an event. *)
Lemma onMessage_invoke (w : Worker) (msg : Message) (event : string) :
  MsgType msg = invokeType →
  getEventName msg = Some event →
  onMessage w msg =
    set_tasks
      (tasks w ++
       [match handlers w !! event with
        | Some handler =>
            HandlerTask event handler (length (streams w))
              (newResponse (Session msg))
        | None =>
            FallbackTask event (fallbackHandler w) (length (streams w))
              (newResponse (Session msg))
        end])
      (set_sessions (<[Session msg := length (streams w)]> (sessions w))
         (set_streams (streams w ++ [newRequest]) w)).
Proof.
  intros Ht He. unfold onMessage. rewrite Ht, He. simpl.
  by destruct (handlers w !! event).
Qed.

(** C9. An invoke frame whose payload yields no event name leaves the worker
    as it was: the session table, the request streams and the goroutines
    started are the same, and nothing is handed to the socket. *)
Theorem corrupted_invoke_dropped (w : Worker) (msg : Message) :
  MsgType msg = invokeType →
  getEventName msg = None →
  onMessage w msg = w ∧
  sessions (onMessage w msg) = sessions w ∧
  streams (onMessage w msg) = streams w ∧
  tasks (onMessage w msg) = tasks w.
Proof.
  intros Ht He.
  assert (E : onMessage w msg = w).
  { unfold onMessage. by rewrite Ht, He. }
  by rewrite E.
Qed.

Lemma corrupted_invoke_dropped_witness :
  onMessage Examples.w7 Examples.corrupted = Examples.w7.
Proof.
  apply (corrupted_invoke_dropped Examples.w7 Examples.corrupted);
    reflexivity.
Defined.

(** C10, as the code has it.  One inbound frame changes the session table at
    most at the frame's own session.  An invoke frame that names an event
    binds that session to a fresh request stream: that adds an entry when
    the session has none and replaces the entry when the session has a live
    one; an invoke frame without an event name leaves the table as it was.
    A choke frame removes that session's entry when there is one.  Every
    other frame leaves the table as it was. *)
Theorem onMessage_sessions_frame (w : Worker) (msg : Message) :
  (∀ s : N, s ≠ Session msg →
     sessions (onMessage w msg) !! s = sessions w !! s) ∧
  (MsgType msg = invokeType →
     match getEventName msg with
     | Some _ =>
         sessions (onMessage w msg)
           = <[Session msg := length (streams w)]> (sessions w) ∧
         streams w !! length (streams w) = None ∧
         (heap_ok w → ∀ old : nat,
            sessions w !! Session msg = Some old →
            sessions (onMessage w msg) !! Session msg ≠ Some old)
     | None => sessions (onMessage w msg) = sessions w
     end) ∧
  (MsgType msg = chokeType →
     sessions (onMessage w msg) = delete (Session msg) (sessions w)) ∧
  (MsgType msg ≠ invokeType → MsgType msg ≠ chokeType →
     sessions (onMessage w msg) = sessions w).
Proof.
  split; [|split; [|split]].
  - intros s Hs. unfold onMessage, onTerminate, Stop, isStopped.
    repeat case_decide; try done.
    + by destruct (sessions w !! Session msg).
    + destruct (sessions w !! Session msg); [|done].
      simpl. by rewrite lookup_delete_ne.
    + destruct (getEventName msg) as [event|]; [|done].
      assert (E : <[Session msg := length (streams w)]> (sessions w) !! s
                  = sessions w !! s) by by rewrite lookup_insert_ne.
      simpl. by destruct (handlers w !! event).
    + by destruct (stopped w).
  - intros Hi. destruct (getEventName msg) as [event|] eqn:He.
    + rewrite (onMessage_invoke w msg event Hi He). simpl.
      split; [done|]. split; [apply lookup_ge_None_2; lia|].
      intros Hok old Hold. rewrite lookup_insert_eq.
      specialize (Hok _ _ Hold). intros Heq. inversion Heq. lia.
    + unfold onMessage. by rewrite Hi, He.
  - intros Hc. unfold onMessage. rewrite Hc. simpl.
    destruct (sessions w !! Session msg) eqn:Hs; [done|].
    by rewrite delete_id.
  - intros Hi Hc. unfold onMessage, onTerminate, Stop, isStopped.
    repeat case_decide; try done.
    + by destruct (sessions w !! Session msg).
    + by destruct (stopped w).
Qed.

Lemma onMessage_sessions_frame_witness :
  sessions (onMessage Examples.w7 (mkMessage chokeType 7 []))
  = delete 7%N (sessions Examples.w7) ∧
  sessions (onMessage Examples.w7 (Examples.newInvoke 7 "explode"))
  = <[7%N := 1%nat]> (sessions Examples.w7).
Proof.
  split.
  - apply (onMessage_sessions_frame Examples.w7 (mkMessage chokeType 7 [])).
    reflexivity.
  - apply (proj1 (proj2 (onMessage_sessions_frame Examples.w7
                           (Examples.newInvoke 7 "explode"))) eq_refl).
Defined.

(** C10, as the specification states it, fails: with session 7 live, an
    invoke frame for session 7 neither leaves the table as it was nor adds
    an entry: it replaces the entry session 7 has. *)
Lemma invoke_replaces_live_entry :
  sessions Examples.w7 !! 7%N = Some 0%nat ∧
  sessions (onMessage Examples.w7 (Examples.newInvoke 7 "explode")) !! 7%N
    = Some 1%nat ∧
  ¬ (sessions (onMessage Examples.w7 (Examples.newInvoke 7 "explode"))
       = sessions Examples.w7 ∨
     (sessions Examples.w7 !! 7%N = None ∧
      ∃ r : nat,
        sessions (onMessage Examples.w7 (Examples.newInvoke 7 "explode"))
          = <[7%N := r]> (sessions Examples.w7))).
Proof.
  split; [reflexivity|]. split; [reflexivity|].
  intros [H | [H _]].
  - apply (f_equal (fun m => m !! 7%N)) in H. vm_compute in H. discriminate H.
  - vm_compute in H. discriminate H.
Qed.

Lemma heap_ok_newWorker (c : socketIO) (i : string) : heap_ok (newWorker c i).
Proof. intros s r H. simpl in H. by rewrite lookup_empty in H. Qed.

Lemma heap_ok_On (event : string) (h : EventHandler) (w : Worker) :
  heap_ok w → heap_ok (On event h w).
Proof. intros Hok. exact Hok. Qed.

Lemma heap_ok_onMessage (w : Worker) (msg : Message) :
  heap_ok w → heap_ok (onMessage w msg).
Proof.
  intros Hok. unfold onMessage, onTerminate, Stop, isStopped.
  repeat case_decide.
  - destruct (sessions w !! Session msg); [|done].
    intros s r Hs. simpl in *. rewrite length_alter. by apply (Hok s).
  - destruct (sessions w !! Session msg); [|done].
    intros s r Hs. simpl in *. rewrite length_alter.
    apply lookup_delete_Some in Hs as [_ Hs]. by apply (Hok s).
  - destruct (getEventName msg) as [event|]; [|done].
    assert (Hgoal : ∀ (s : N) (r : nat),
      <[Session msg := length (streams w)]> (sessions w) !! s = Some r →
      (r < length (streams w ++ [newRequest]))%nat).
    { intros s r Hs. rewrite length_app. simpl.
      destruct (decide (Session msg = s)) as [<-|Hne].
      - rewrite lookup_insert_eq in Hs. inversion Hs. lia.
      - rewrite lookup_insert_ne in Hs by done.
        specialize (Hok s r Hs). lia. }
    simpl. by destruct (handlers w !! event).
  - done.
  - by destruct (stopped w).
  - done.
Qed.

(** C2, as the code has it.  The session table holds at most one entry per
    session id.  An invoke frame that names an event, arriving for a session
    with a live entry, is not dropped: a fresh request stream is allocated
    and takes the place of the entry, the stream of the old entry is left as
    it was, and one goroutine is started on the fresh stream for that
    session. *)
Theorem duplicate_invoke_replaces (w : Worker) (msg : Message)
    (event : string) (old : nat) :
  heap_ok w →
  MsgType msg = invokeType →
  getEventName msg = Some event →
  sessions w !! Session msg = Some old →
  let w' := onMessage w msg in
  NoDup (map_to_list (sessions w')).*1 ∧
  size (sessions w') = size (sessions w) ∧
  (∃ fresh : nat,
     sessions w' !! Session msg = Some fresh ∧ fresh ≠ old ∧
     streams w !! fresh = None ∧
     streams w' !! fresh = Some newRequest ∧
     streams w' !! old = streams w !! old ∧
     ∃ t : task,
       tasks w' = tasks w ++ [t] ∧ task_event t = event ∧
       task_request t = fresh ∧
       task_response t = newResponse (Session msg)).
Proof.
  intros Hok Ht He Hold w'. subst w'.
  rewrite (onMessage_invoke w msg event Ht He). simpl.
  split; [apply NoDup_fst_map_to_list|].
  split.
  { rewrite <- (insert_delete_id (sessions w) (Session msg) old Hold) at 2.
    rewrite <- (insert_delete_eq (sessions w)).
    rewrite !map_size_insert_None by apply lookup_delete_eq. done. }
  exists (length (streams w)).
  assert (Hlt := Hok _ _ Hold).
  split; [apply lookup_insert_eq|].
  split; [lia|].
  split; [apply lookup_ge_None_2; lia|].
  split; [by rewrite lookup_app_r, Nat.sub_diag by lia|].
  split; [by rewrite lookup_app_l by lia|].
  eexists. split; [reflexivity|].
  by destruct (handlers w !! event).
Qed.

Lemma duplicate_invoke_replaces_witness :
  sessions (onMessage Examples.w7 (Examples.newInvoke 7 "explode")) !! 7%N
  ≠ sessions Examples.w7 !! 7%N.
Proof.
  assert (Hok : heap_ok Examples.w7).
  { apply heap_ok_onMessage. do 2 apply heap_ok_On. apply heap_ok_newWorker. }
  destruct (duplicate_invoke_replaces Examples.w7
              (Examples.newInvoke 7 "explode") "explode" 0%nat Hok
              eq_refl eq_refl eq_refl)
    as (_ & _ & fresh & Hnew & Hne & _).
  change (Session (Examples.newInvoke 7 "explode")) with 7%N in Hnew.
  rewrite Hnew. intros H. apply Hne.
  by injection H.
Defined.

(** C2, as the specification states it, fails: with session 7 live, a second
    invoke frame for session 7 is not dropped. *)
Lemma duplicate_invoke_not_dropped :
  sessions Examples.w7 !! 7%N = Some 0%nat ∧
  sessions (onMessage Examples.w7 (Examples.newInvoke 7 "explode")) !! 7%N
    = Some 1%nat ∧
  length (tasks (onMessage Examples.w7 (Examples.newInvoke 7 "explode")))
    = S (length (tasks Examples.w7)) ∧
  ¬ (sessions (onMessage Examples.w7 (Examples.newInvoke 7 "explode"))
       = sessions Examples.w7 ∧
     streams (onMessage Examples.w7 (Examples.newInvoke 7 "explode"))
       = streams Examples.w7 ∧
     tasks (onMessage Examples.w7 (Examples.newInvoke 7 "explode"))
       = tasks Examples.w7).
Proof.
  split; [reflexivity|]. split; [reflexivity|]. split; [reflexivity|].
  intros (_ & Hs & _). vm_compute in Hs. discriminate Hs.
Qed.

(** *** The exit error of the loop *)

Lemma Stop_stopped (w : Worker) : stopped (Stop w) = true.
Proof. unfold Stop, isStopped. by destruct (stopped w) eqn:E. Qed.

Lemma onMessage_stopped (w : Worker) (msg : Message) :
  stopped w = true → stopped (onMessage w msg) = true.
Proof.
  intros Hs. unfold onMessage, onTerminate.
  repeat case_decide; try done.
  - by destruct (sessions w !! Session msg).
  - by destruct (sessions w !! Session msg).
  - destruct (getEventName msg) as [event|]; [|done].
    simpl. by destruct (handlers w !! event).
  - apply Stop_stopped.
Qed.

Lemma onMessage_terminate (w : Worker) (msg : Message) :
  MsgType msg = terminateType → onMessage w msg = Stop w.
Proof. intros Ht. unfold onMessage. by rewrite Ht. Qed.

(** One event: the error it leaves, and what it does to [stopped]. *)
Lemma loop_step_Continue (w w1 : Worker) (err err1 : option error)
    (ev : event) :
  loop_step w err ev = Continue w1 err1 →
  err1 = (if is_disown ev then Some ErrDisowned else err) ∧
  (stopped w = true → stopped w1 = true) ∧
  (is_disown ev || is_stop_call ev || is_terminate ev = true →
   stopped w1 = true).
Proof.
  destruct ev as [[msg|]| | | | | | |]; simpl; intros H.
  - inversion H; subst. split; [done|].
    split; [apply onMessage_stopped|].
    intros Ht. apply bool_decide_eq_true in Ht.
    rewrite onMessage_terminate by done. apply Stop_stopped.
  - by inversion H; subst.
  - destruct (Timer_receive (heartbeatTimer w)); inversion H; subst. by simpl.
  - destruct (Timer_receive (disownTimer w)); inversion H; subst.
    split; [done|]. split; intros _; apply Stop_stopped.
  - by inversion H; subst.
  - by destruct (stopped w).
  - destruct (Timer_expire (heartbeatTimer w)); inversion H; subst. by simpl.
  - destruct (Timer_expire (disownTimer w)); inversion H; subst. by simpl.
  - inversion H; subst. split; [done|]. split; intros _; apply Stop_stopped.
Qed.

Lemma loop_from_Running (evs : list event) :
  ∀ (w w' : Worker) (err err' : option error),
  loop_from w err evs = Running w' err' →
  err' = (if existsb is_disown evs then Some ErrDisowned else err) ∧
  (stopped w = true → stopped w' = true) ∧
  (existsb is_disown evs || existsb is_stop_call evs
     || existsb is_terminate evs = true →
   stopped w' = true).
Proof.
  induction evs as [|ev evs IH]; intros w w' err err' H; simpl in H.
  - inversion H; subst. by simpl.
  - destruct (loop_step w err ev) as [w1 err1| |] eqn:Hstep; try done.
    destruct (loop_step_Continue _ _ _ _ _ Hstep) as (He1 & Hmono1 & Hset1).
    destruct (IH _ _ _ _ H) as (He & Hmono & Hset).
    simpl. split; [|split].
    + rewrite He, He1. by destruct (is_disown ev), (existsb is_disown evs).
    + auto.
    + intros Hany.
      destruct (is_disown ev || is_stop_call ev || is_terminate ev) eqn:Hev.
      * auto.
      * apply Hset.
        destruct (is_disown ev), (is_stop_call ev), (is_terminate ev);
          try discriminate Hev. exact Hany.
Qed.

Lemma loop_from_app (evs1 evs2 : list event) :
  ∀ (w : Worker) (err : option error),
  loop_from w err (evs1 ++ evs2) =
    match loop_from w err evs1 with
    | Running w' err' => loop_from w' err' evs2
    | r => r
    end.
Proof.
  induction evs1 as [|ev evs1 IH]; intros w err; simpl; [done|].
  by destruct (loop_step w err ev).
Qed.

(** The loop returns only by the [stopped] case, with the error it holds. *)
Lemma loop_from_Finished (evs : list event) :
  ∀ (w : Worker) (err e : option error),
  loop_from w err evs = Finished e →
  ∃ (pre post : list event) (w' : Worker),
    evs = pre ++ StoppedClosed :: post ∧
    loop_from w err pre = Running w' e ∧
    stopped w' = true.
Proof.
  induction evs as [|ev evs IH]; intros w err e H; simpl in H; [done|].
  destruct (loop_step w err ev) as [w1 err1|e1|] eqn:Hstep; [| |done].
  - destruct (IH _ _ _ H) as (pre & post & w' & -> & Hpre & Hs).
    exists (ev :: pre), post, w'. simpl. by rewrite Hstep.
  - inversion H; subst e1. exists [], evs, w.
    destruct ev as [[msg|]| | | | | | |]; simpl in Hstep; try done.
    + by destruct (Timer_receive (heartbeatTimer w)).
    + by destruct (Timer_receive (disownTimer w)).
    + destruct (stopped w) eqn:Hs; [|done]. by inversion Hstep; subst.
    + by destruct (Timer_expire (heartbeatTimer w)).
    + by destruct (Timer_expire (disownTimer w)).
Qed.

(** C1. Every run of [Run] that returns does so by the [stopped] case, and
    what it returns is [ErrDisowned] if the disown timer has fired before
    that and nil if it has not.  Every run that is still going returns as
    soon as the [stopped] case is taken, which is ready, [ErrDisowned] if the
    disown timer has fired, and nil if it has not and the worker has been
    stopped by a call of [Stop] or by a terminate frame. *)
Theorem Run_exit_error (hs : gmap string EventHandler) (w : Worker)
    (evs : list event) :
  (∀ e : option error,
     Run hs w evs = Finished e →
     ∃ (pre post : list event) (w' : Worker),
       evs = pre ++ StoppedClosed :: post ∧
       Run hs w pre = Running w' e ∧
       stopped w' = true ∧
       e = if existsb is_disown pre then Some ErrDisowned else None) ∧
  (∀ (w' : Worker) (err : option error),
     Run hs w evs = Running w' err →
     (existsb is_disown evs = true →
      Run hs w (evs ++ [StoppedClosed]) = Finished (Some ErrDisowned)) ∧
     (existsb is_disown evs = false →
      existsb is_stop_call evs || existsb is_terminate evs = true →
      Run hs w (evs ++ [StoppedClosed]) = Finished None)).
Proof.
  unfold Run, loop. split.
  - intros e H.
    destruct (loop_from_Finished _ _ _ _ H) as (pre & post & w' & E & Hpre & Hs).
    exists pre, post, w'. repeat (split; [done|]).
    by destruct (loop_from_Running _ _ _ _ _ Hpre) as (He & _ & _).
  - intros w' err Hrun.
    destruct (loop_from_Running _ _ _ _ _ Hrun) as (He & _ & Hset).
    rewrite loop_from_app, Hrun. simpl.
    split.
    + intros Hd. rewrite Hd in He, Hset. rewrite Hset by done. by rewrite He.
    + intros Hd Hc. rewrite Hd in He, Hset. rewrite Hset by done.
      by rewrite He.
Qed.

Lemma Run_exit_error_witness :
  Run Examples.hs0 Examples.w0
    ([DisownTimerExpired; DisownTimerFired] ++ [StoppedClosed])
  = Finished (Some ErrDisowned) ∧
  Run Examples.hs0 Examples.w0
    ([ConnRead (Some Examples.terminate)] ++ [StoppedClosed])
  = Finished None.
Proof.
  split.
  - eapply (proj2 (Run_exit_error Examples.hs0 Examples.w0
                     [DisownTimerExpired; DisownTimerFired]));
      [vm_compute; reflexivity | reflexivity].
  - eapply (proj2 (Run_exit_error Examples.hs0 Examples.w0
                     [ConnRead (Some Examples.terminate)]));
      [vm_compute; reflexivity | reflexivity | reflexivity].
Defined.

(** Scenario S5: after an echo session, [Stop] is called twice. *)
Example run_clean_stop :
  Run Examples.hs0 Examples.w0
    [ConnRead (Some (Examples.newInvoke 7 "echo"));
     ConnRead (Some (newChunk 7 []));
     ConnRead (Some (newChoke 7));
     ExternalStop; ExternalStop; StoppedClosed]
  = Finished None.
Proof. reflexivity. Qed.

(** *** The two timeouts *)

Lemma timers_inv_eq (w w' : Worker) :
  heartbeatTimer w' = heartbeatTimer w →
  disownTimer w' = disownTimer w →
  timers_inv w → timers_inv w'.
Proof. unfold timers_inv. intros -> ->. done. Qed.

Lemma Stop_timers (w : Worker) :
  heartbeatTimer (Stop w) = heartbeatTimer w ∧
  disownTimer (Stop w) = disownTimer w.
Proof. unfold Stop, isStopped. by destruct (stopped w). Qed.

Lemma onMessage_timers_inv (w : Worker) (msg : Message) :
  timers_inv w → timers_inv (onMessage w msg).
Proof.
  intros Hinv. unfold onMessage, onTerminate.
  repeat case_decide.
  - by destruct (sessions w !! Session msg).
  - by destruct (sessions w !! Session msg).
  - destruct (getEventName msg) as [event|]; [|done].
    simpl. by destruct (handlers w !! event).
  - destruct Hinv as [Hh _]. split; [exact Hh | done].
  - destruct (Stop_timers w) as [Eh Ed]. by apply (timers_inv_eq w).
  - done.
Qed.

Lemma loop_step_timers_inv (w w1 : Worker) (err err1 : option error)
    (ev : event) :
  timers_inv w → loop_step w err ev = Continue w1 err1 → timers_inv w1.
Proof.
  intros Hinv.
  destruct ev as [[msg|]| | | | | | |]; simpl; intros H.
  - inversion H; subst. by apply onMessage_timers_inv.
  - by inversion H; subst.
  - destruct (Timer_receive (heartbeatTimer w)); inversion H; subst.
    split; simpl; congruence.
  - unfold Timer_receive in H.
    destruct (timer_tick (disownTimer w)); inversion H; subst.
    unfold onDisown.
    destruct (Stop_timers (set_disownTimer
                (mkTimer (timer_armed (disownTimer w)) false) w)) as [Eh Ed].
    destruct Hinv as [Hh Hd]. split; rewrite ?Eh, ?Ed; simpl; auto.
  - by inversion H; subst.
  - by destruct (stopped w).
  - destruct (Timer_expire (heartbeatTimer w)) eqn:E; inversion H; subst.
    unfold Timer_expire in E.
    destruct (timer_armed (heartbeatTimer w)); inversion E; subst.
    destruct Hinv as [_ Hd]. split; [done | exact Hd].
  - destruct (Timer_expire (disownTimer w)) eqn:E; inversion H; subst.
    unfold Timer_expire in E.
    destruct (timer_armed (disownTimer w)); inversion E; subst.
    destruct Hinv as [Hh _]. split; [exact Hh | done].
  - inversion H; subst. destruct (Stop_timers w) as [Eh Ed].
    by apply (timers_inv_eq w).
Qed.

Lemma loop_from_timers_inv (evs : list event) :
  ∀ (w w' : Worker) (err err' : option error),
  timers_inv w → loop_from w err evs = Running w' err' → timers_inv w'.
Proof.
  induction evs as [|ev evs IH]; intros w w' err err' Hinv H; simpl in H.
  - by inversion H; subst.
  - destruct (loop_step w err ev) as [w1 err1| |] eqn:Hstep; try done.
    eapply IH; [|exact H]. eapply loop_step_timers_inv; eauto.
Qed.

(** C8, as the code has it.  Whatever connection and worker id [newWorker]
    is given and whatever handlers [Run] is given, the first heartbeat arms
    the heartbeat timer with 10 seconds and the disown timer with 5 seconds,
    and through every run these are the only durations the two timers are
    armed with: the two values are constants. *)
Theorem timeouts_are_constants (c : socketIO) (i : string)
    (hs : gmap string EventHandler) (evs : list event) :
  (∃ w1, Run hs (newWorker c i) [] = Running w1 None ∧
         timer_armed (heartbeatTimer w1) = Some (10 * 1000000000) ∧
         timer_armed (disownTimer w1) = Some (5 * 1000000000)) ∧
  match Run hs (newWorker c i) evs with
  | Running w' _ =>
      (∀ d, timer_armed (heartbeatTimer w') = Some d → d = 10 * 1000000000) ∧
      (∀ d, timer_armed (disownTimer w') = Some d → d = 5 * 1000000000)
  | _ => True
  end.
Proof.
  split.
  - eexists. split; [reflexivity|]. by split.
  - destruct (Run hs (newWorker c i) evs) as [w' err'| |] eqn:Hrun; try done.
    unfold Run, loop in Hrun.
    apply (loop_from_timers_inv evs
             (onHeartbeat (map_fold On (newWorker c i) hs)) w' None err');
      [|exact Hrun].
    split; simpl; intros d Hd; by inversion Hd.
Qed.

(** C8, as the specification states it, fails: no two calls of the
    constructor give workers whose first heartbeat arms a timer with
    different durations. *)
Lemma timeouts_not_configurable :
  ¬ ∃ (c c' : socketIO) (i i' : string),
      timer_armed (heartbeatTimer (onHeartbeat (newWorker c i)))
        ≠ timer_armed (heartbeatTimer (onHeartbeat (newWorker c' i'))) ∨
      timer_armed (disownTimer (onHeartbeat (newWorker c i)))
        ≠ timer_armed (disownTimer (onHeartbeat (newWorker c' i'))).
Proof. intros (c & c' & i & i' & [H | H]); by apply H. Qed.

(** *** Goroutines, panics and the fallback handler *)







(** A handler that has closed its response before it panics: the trap sends
    nothing. *)
Example panic_after_close :
  run_task
    (HandlerTask "late" Examples.close_then_explode 0 (newResponse 5)) []
  = (Exited, [newChoke 5]).
Proof. reflexivity. Qed.

(** C4. For an invoke frame that names an event with no registered handler,
    on a worker whose fallback handler is the default one, [onMessage]
    starts the fallback goroutine on the frame's session, and what that
    goroutine sends is an error frame on that session with code 200 and the
    message There is no handler for event <event>, followed by a choke
    frame on that session; the response stream is finished afterwards. *)
Theorem default_fallback_reply (w : Worker) (msg : Message)
    (event : string) :
  MsgType msg = invokeType →
  getEventName msg = Some event →
  handlers w !! event = None →
  fallbackHandler w = DefaultFallbackEventHandler →
  ∃ t : task,
    tasks (onMessage w msg) = tasks w ++ [t] ∧
    t = FallbackTask event DefaultFallbackEventHandler (length (streams w))
          (newResponse (Session msg)) ∧
    ∀ reads : list ReadResult,
      run_task t reads =
        (Exited,
         [newError (Session msg) 200
            (String.append "There is no handler for event " event);
          newChoke (Session msg)]) ∧
      resp_finished (task_final_response t reads) = true.
Proof.
  intros Ht He Hh Hf.
  rewrite (onMessage_invoke w msg event Ht He). rewrite Hh, Hf. simpl.
  eexists. split; [reflexivity|]. split; [reflexivity|].
  intros reads. split; reflexivity.
Qed.

Lemma default_fallback_reply_witness :
  ∃ t : task,
    tasks (onMessage Examples.w0 (Examples.newInvoke 3 "missing"))
      = tasks Examples.w0 ++ [t] ∧
    t = Examples.missing_task ∧
    ∀ reads : list ReadResult,
      run_task t reads =
        (Exited,
         [newError 3 200 "There is no handler for event missing";
          newChoke 3]) ∧
      resp_finished (task_final_response t reads) = true.
Proof.
  apply (default_fallback_reply Examples.w0
           (Examples.newInvoke 3 "missing") "missing"); reflexivity.
Defined.


End WorkerProps.

(** ** Properties of the locator's Resolve *)

Module LocatorProps.
Import Locator.

Section Decoder.

Variable Decode : list Byte.byte → decoded.

Lemma on_msgs_Some (items : list item) :
  ∀ st st' : resolve_state,
  on_msgs Decode st items = Some st' → st' = after_items Decode st items.
Proof.
  induction items as [|it items IH]; intros st st' H; simpl in H.
  - inversion H; subst. unfold after_items. simpl.
    rewrite orb_false_r, app_nil_r. by destruct st'.
  - destruct (on_item Decode st it) as [st1|] eqn:Hit; [|done].
    rewrite (IH _ _ H). clear IH H.
    unfold on_item in Hit. unfold after_items. simpl.
    unfold is_chunk, is_choke.
    destruct (decide (GetTypeID it = CHUNK)) as [Hc|Hc].
    + rewrite (bool_decide_eq_true_2 _ Hc).
      assert (Hk : bool_decide (GetTypeID it = CHOKE) = false).
      { apply bool_decide_eq_false_2. rewrite Hc. discriminate. }
      rewrite Hk.
      destruct (GetPayload it) as [|[| | |chunk] rest]; try done.
      destruct (unpackchunk Decode chunk) as [res lg] eqn:Hu.
      inversion Hit; subst st1. simpl.
      rewrite Hu. simpl. f_equal; [|by rewrite <- app_assoc].
      rewrite last_cons.
      destruct (last (chunks_of items)); simpl; [done | by rewrite Hu].
    + rewrite (bool_decide_eq_false_2 _ Hc).
      destruct (decide (GetTypeID it = CHOKE)) as [Hk|Hk].
      * rewrite (bool_decide_eq_true_2 _ Hk).
        inversion Hit; subst st1. simpl. by rewrite orb_true_r.
      * rewrite (bool_decide_eq_false_2 _ Hk).
        by inversion Hit; subst st1.
Qed.

Lemma on_msgs_total (items : list item) :
  ∀ st : resolve_state,
  forallb chunk_ok items = true → is_Some (on_msgs Decode st items).
Proof.
  induction items as [|it items IH]; intros st H; simpl in *; [by eexists|].
  apply andb_true_iff in H as [Hit Hrest].
  unfold chunk_ok, is_chunk in Hit. unfold on_item.
  destruct (decide (GetTypeID it = CHUNK)) as [Hc|Hc].
  - rewrite (bool_decide_eq_true_2 _ Hc) in Hit.
    destruct (GetPayload it) as [|[| | |chunk] rest]; try done.
    destruct (unpackchunk Decode chunk) as [res lg]. by apply IH.
  - destruct (decide (GetTypeID it = CHOKE)); by apply IH.
Qed.

Lemma after_items_app (st : resolve_state) (l1 l2 : list item) :
  after_items Decode (after_items Decode st l1) l2 =
  after_items Decode st (l1 ++ l2).
Proof.
  assert (Hch : ∀ l1 l2, chunks_of (l1 ++ l2) = chunks_of l1 ++ chunks_of l2).
  { clear. induction l1 as [|it l1 IH]; intros l2; simpl; [done|].
    destruct (is_chunk it); [|apply IH].
    destruct (GetPayload it) as [|[| | |chunk] rest]; try apply IH.
    simpl. by rewrite IH. }
  unfold after_items. simpl.
  rewrite Hch, last_app, existsb_app, flat_map_app, orb_assoc, app_assoc.
  f_equal. by destruct (last (chunks_of l2)).
Qed.

(** The loop: what it yields, from any state in which [closed] is false. *)
Lemma resolve_loop_Yielded (answers : list (list item)) :
  ∀ (st : resolve_state) (r : ResolveResult) (log : list log_line),
  closed st = false →
  resolve_loop Decode st answers = Yielded r log →
  r = resolveresult (after_items Decode st (handled answers)) ∧
  log = logged (after_items Decode st (handled answers)).
Proof.
  induction answers as [|msgs answers IH]; intros st r log Hcl H;
    simpl in H; [done|].
  destruct (on_msgs Decode st msgs) as [st'|] eqn:Hm; [|done].
  apply on_msgs_Some in Hm. subst st'.
  assert (Hcl' : closed (after_items Decode st msgs) = existsb is_choke msgs)
    by (simpl; by rewrite Hcl).
  rewrite Hcl' in H.
  change (handled (msgs :: answers))
    with (if existsb is_choke msgs then msgs else msgs ++ handled answers).
  destruct (existsb is_choke msgs) eqn:Hk.
  - by inversion H; subst.
  - rewrite <- after_items_app. apply IH; [by rewrite Hcl' | exact H].
Qed.

(** The loop yields as soon as a list holds a choke, and not before. *)
Lemma resolve_loop_progress (answers : list (list item)) :
  ∀ st : resolve_state,
  closed st = false →
  forallb chunk_ok (handled answers) = true →
  if existsb is_choke (handled answers)
  then ∃ r log, resolve_loop Decode st answers = Yielded r log
  else ∃ st', resolve_loop Decode st answers = AwaitingAnswer st'.
Proof.
  induction answers as [|msgs answers IH]; intros st Hcl Hok; simpl in *.
  - by eexists.
  - destruct (existsb is_choke msgs) eqn:Hk.
    + destruct (on_msgs_total msgs st Hok) as [st' Hm]. rewrite Hm, Hk.
      apply on_msgs_Some in Hm. subst st'. simpl. rewrite Hk, orb_true_r.
      by do 2 eexists.
    + rewrite forallb_app in Hok. apply andb_true_iff in Hok as [Hok1 Hok2].
      destruct (on_msgs_total msgs st Hok1) as [st' Hm]. rewrite Hm.
      apply on_msgs_Some in Hm. subst st'. simpl. rewrite Hcl, Hk. simpl.
      rewrite existsb_app, Hk. simpl.
      apply IH; [|exact Hok2]. simpl. by rewrite Hcl, Hk.
Qed.

(** Reads that unpack to nothing leave the goroutine where it is. *)
Lemma resolve_loop_idle (st : resolve_state) (n : nat) :
  closed st = false →
  resolve_loop Decode st (repeat [] n) = AwaitingAnswer st.
Proof.
  intros Hcl. induction n as [|n IH]; simpl; [done|]. by rewrite Hcl.
Qed.

(** C5, as the code has it.  The result [Resolve] yields is what
    [unpackchunk] returns for the last chunk frame handled, with [success]
    set, whether or not that chunk decoded: a chunk that fails to decode is
    logged and its partly filled record is taken all the same.  [success]
    is false exactly when no chunk frame has been handled. *)
Theorem Resolve_result (name : string) (answers : list (list item))
    (r : ResolveResult) (log : list log_line) :
  (Resolve Decode name answers).2 = Yielded r log →
  r = match last (chunks_of (handled answers)) with
      | Some chunk => set_success true (unpackchunk Decode chunk).1
      | None => zero_ResolveResult
      end ∧
  log = flat_map (fun chunk => (unpackchunk Decode chunk).2)
          (chunks_of (handled answers)) ∧
  (success r = true ↔ chunks_of (handled answers) ≠ []) ∧
  (∀ chunk res err,
     Decode chunk = DecodeFailed res err →
     unpackchunk Decode chunk = (set_success false res, [LogUnpackError err])).
Proof.
  unfold Resolve. simpl. intros H.
  apply resolve_loop_Yielded in H as [Hr Hl]; [|done].
  simpl in Hr, Hl. split; [exact Hr|]. split; [exact Hl|]. split.
  - rewrite Hr. destruct (chunks_of (handled answers)) as [|c cs] eqn:E.
    + simpl. split; [discriminate | done].
    + split; [done|]. intros _.
      destruct (last (c :: cs)) eqn:El; [done|].
      by apply last_None in El.
  - intros chunk res err Hd. unfold unpackchunk. by rewrite Hd.
Qed.

(** C6, as the code has it.  With well-formed chunk frames, the channel
    [Resolve] returns sees exactly one send once a list of answers holds a
    choke frame, and nothing until then; [Resolve] never closes it. *)
Theorem Resolve_yields_once (name : string) (answers : list (list item)) :
  forallb chunk_ok (handled answers) = true →
  (existsb is_choke (handled answers) = true →
   ∃ r, Out_events Decode name answers = [ChanSend r]) ∧
  (existsb is_choke (handled answers) = false →
   Out_events Decode name answers = []) ∧
  ¬ In ChanClose (Out_events Decode name answers).
Proof.
  intros Hok. unfold Out_events, Resolve. simpl.
  assert (Hp := resolve_loop_progress answers
                  (mkState (set_success false zero_ResolveResult) false [])
                  eq_refl Hok).
  split; [|split].
  - intros Hk. rewrite Hk in Hp. destruct Hp as (r & log & ->). by exists r.
  - intros Hk. rewrite Hk in Hp. by destruct Hp as (st' & ->).
  - destruct (resolve_loop Decode _ answers); simpl; [|tauto..].
    intros [H | []]. discriminate H.
Qed.

End Decoder.

Lemma Resolve_result_witness :
  success
    (mkResolveResult true (mkEndpoint "h" 9) 1 {[ 0 := "m"%string ]})
  = true ↔
  chunks_of (handled [[Examples.chunk_item [Byte.x01]; Examples.choke_item]])
  ≠ [].
Proof.
  apply (Resolve_result Examples.decode_svc "svc"
           [[Examples.chunk_item [Byte.x01]; Examples.choke_item]]
           _ []).
  reflexivity.
Defined.

Lemma Resolve_yields_once_witness :
  ∃ r,
    Out_events Examples.decode_svc "svc"
      [[Examples.chunk_item [Byte.x01]]; [Examples.choke_item]]
    = [ChanSend r].
Proof.
  apply (Resolve_yields_once Examples.decode_svc "svc"
           [[Examples.chunk_item [Byte.x01]]; [Examples.choke_item]]);
    reflexivity.
Defined.

(** Scenario S6: one chunk, then a choke. *)
Example resolve_svc :
  Out_events Examples.decode_svc "svc"
    [[Examples.chunk_item [Byte.x01]; Examples.choke_item]]
  = [ChanSend
       (mkResolveResult true (mkEndpoint "h" 9) 1 {[ 0 := "m"%string ]})].
Proof. reflexivity. Qed.

(** C5, as the specification states it, fails: a chunk that decodes, then a
    chunk that does not, then the choke.  The specification keeps the first
    chunk's record; the code yields the record of the failed chunk, with
    [success] set.  With the failing chunk alone, [success] is set although
    no chunk has decoded. *)
Lemma failed_chunk_not_ignored :
  Out_events Examples.decode_svc "svc"
    [[Examples.chunk_item [Byte.x01]; Examples.chunk_item [];
      Examples.choke_item]]
  = [ChanSend (set_success true zero_ResolveResult)] ∧
  spec_result Examples.decode_svc
    [Examples.chunk_item [Byte.x01]; Examples.chunk_item [];
     Examples.choke_item]
  = mkResolveResult true (mkEndpoint "h" 9) 1 {[ 0 := "m"%string ]} ∧
  Out_events Examples.decode_svc "svc"
    [[Examples.chunk_item [Byte.x01]; Examples.chunk_item [];
      Examples.choke_item]]
  ≠ [ChanSend
       (spec_result Examples.decode_svc
          [Examples.chunk_item [Byte.x01]; Examples.chunk_item [];
           Examples.choke_item])] ∧
  Out_events Examples.decode_svc "svc"
    [[Examples.chunk_item []; Examples.choke_item]]
  = [ChanSend (set_success true zero_ResolveResult)] ∧
  success
    (spec_result Examples.decode_svc
       [Examples.chunk_item []; Examples.choke_item])
  = false.
Proof.
  split; [reflexivity|]. split; [reflexivity|].
  split; [|split; reflexivity].
  intros H. vm_compute in H. discriminate H.
Qed.

(** C6, as the specification states it, fails: after the one send the
    channel is not closed. *)
Lemma Resolve_channel_not_closed :
  Out_events Examples.decode_svc "svc"
    [[Examples.chunk_item [Byte.x01]; Examples.choke_item]]
  = [ChanSend
       (mkResolveResult true (mkEndpoint "h" 9) 1 {[ 0 := "m"%string ]})] ∧
  ¬ ∃ r,
      Out_events Examples.decode_svc "svc"
        [[Examples.chunk_item [Byte.x01]; Examples.choke_item]]
      = [ChanSend r; ChanClose].
Proof.
  split; [reflexivity|]. intros [r H]. discriminate H.
Qed.

End LocatorProps.

(** ** Further properties of the worker *)

Module WorkerExtra.
Import Worker WorkerInv.

(** *** Registration and dispatch *)

(** [Run]'s registration loop touches the handler table only. *)
Lemma register_all (hs : gmap string EventHandler) (w : Worker) :
  map_fold On w hs = set_handlers (hs ∪ handlers w) w.
Proof.
  apply (map_fold_weak_ind
           (fun r m => r = set_handlers (m ∪ handlers w) w)).
  - rewrite (left_id_L ∅ (∪)). by destruct w.
  - intros event h m r Hfresh ->. unfold On. simpl.
    by rewrite insert_union_l.
Qed.

(** X1. [Run] hands an invoke frame to the handler its [handlers] argument
    has for the event; failing that, to the handler registered before with
    [On]; failing that, to the fallback handler.  A request stream is
    allocated for the goroutine: it is new, empty and open, the streams
    there were are as they were, and the session is bound to it; the
    goroutine's response stream is one for the frame's session. *)
Theorem Run_dispatch (hs : gmap string EventHandler) (w : Worker)
    (msg : Message) (event : string) :
  MsgType msg = invokeType →
  getEventName msg = Some event →
  ∃ w2 : Worker,
    Run hs w [ConnRead (Some msg)] = Running w2 None ∧
    tasks w2 =
      tasks w ++
      [match hs !! event, handlers w !! event with
       | Some h, _ | None, Some h =>
           HandlerTask event h (length (streams w))
             (newResponse (Session msg))
       | None, None =>
           FallbackTask event (fallbackHandler w) (length (streams w))
             (newResponse (Session msg))
       end] ∧
    sessions w2 = <[Session msg := length (streams w)]> (sessions w) ∧
    streams w2 = streams w ++ [newRequest] ∧
    streams w !! length (streams w) = None ∧
    streams w2 !! length (streams w) = Some (mkRequest [] false).
Proof.
  intros Ht He. unfold Run, loop. rewrite register_all. simpl.
  eexists. split; [reflexivity|].
  rewrite (WorkerProps.onMessage_invoke _ msg event Ht He). simpl.
  split; [|split; [done|split; [done|split]]].
  - do 2 f_equal.
    destruct (hs !! event) as [h|] eqn:Hh.
    + by rewrite (lookup_union_Some_l _ _ _ _ Hh).
    + rewrite (lookup_union_r _ _ _ Hh). by destruct (handlers w !! event).
  - apply lookup_ge_None_2. lia.
  - by rewrite lookup_app_r, Nat.sub_diag by lia.
Qed.

Lemma Run_dispatch_witness :
  ∃ w2 : Worker,
    Run Examples.hs0 Examples.w0
      [ConnRead (Some (Examples.newInvoke 5 "explode"))] = Running w2 None ∧
    tasks w2 = tasks Examples.w0 ++ [Examples.explode_task] ∧
    sessions w2 = <[5%N := 0%nat]> (sessions Examples.w0) ∧
    streams w2 = streams Examples.w0 ++ [newRequest] ∧
    streams Examples.w0 !! 0%nat = None ∧
    streams w2 !! 0%nat = Some (mkRequest [] false).
Proof.
  apply (Run_dispatch Examples.hs0 Examples.w0
           (Examples.newInvoke 5 "explode") "explode"); reflexivity.
Defined.

(** *** Frames for sessions *)

(** What [onMessage] does on a choke frame for a live session. *)
Lemma onMessage_choke_live (w : Worker) (msg : Message) (r : nat) :
  MsgType msg = chokeType →
  sessions w !! Session msg = Some r →
  onMessage w msg =
    set_sessions (delete (Session msg) (sessions w))
      (set_streams (alter req_Close r (streams w)) w).
Proof. intros Ht Hs. unfold onMessage. by rewrite Ht, Hs. Qed.

(** X2. A chunk or choke frame for a session that has no entry in the
    session table leaves the worker exactly as it was. *)
Theorem unknown_session_dropped (w : Worker) (msg : Message) :
  sessions w !! Session msg = None →
  MsgType msg = chunkType ∨ MsgType msg = chokeType →
  onMessage w msg = w.
Proof.
  intros Hs [Ht | Ht]; unfold onMessage; rewrite Ht; simpl; by rewrite Hs.
Qed.

Lemma unknown_session_dropped_witness :
  onMessage Examples.w7 (newChunk 8 []) = Examples.w7.
Proof.
  apply (unknown_session_dropped Examples.w7 (newChunk 8 []));
    [reflexivity | by left].
Defined.

(** X3. An invoke frame followed by a choke frame for the same session
    leaves no entry for that session: the table is the one before the
    invoke, less that session.  The goroutine started for the invoke stays,
    and a chunk frame that comes for the session afterwards is dropped. *)
Theorem invoke_then_choke (w : Worker) (msg : Message) (event : string)
    (p p' : list value) :
  MsgType msg = invokeType →
  getEventName msg = Some event →
  let w1 := onMessage w msg in
  let w2 := onMessage w1 (mkMessage chokeType (Session msg) p) in
  sessions w2 = delete (Session msg) (sessions w) ∧
  (sessions w !! Session msg = None → sessions w2 = sessions w) ∧
  tasks w2 = tasks w1 ∧
  length (tasks w1) = S (length (tasks w)) ∧
  onMessage w2 (mkMessage chunkType (Session msg) p') = w2.
Proof.
  intros Ht He w1 w2.
  assert (H2 : sessions w2 = delete (Session msg) (sessions w) ∧
               tasks w2 = tasks w1).
  { subst w2 w1. rewrite (WorkerProps.onMessage_invoke w msg event Ht He).
    rewrite (onMessage_choke_live _
               (mkMessage chokeType (Session msg) p) (length (streams w))
               eq_refl)
      by apply lookup_insert_eq.
    simpl. by rewrite delete_insert_eq. }
  destruct H2 as [Hs Htasks].
  split; [exact Hs|]. split; [|split; [exact Htasks|split]].
  - intros Hnone. rewrite Hs. by apply delete_id.
  - subst w1. rewrite (WorkerProps.onMessage_invoke w msg event Ht He).
    simpl. rewrite length_app. simpl. lia.
  - unfold onMessage at 1. simpl. rewrite Hs, lookup_delete_eq. done.
Qed.

Lemma invoke_then_choke_witness :
  sessions
    (onMessage (onMessage Examples.w0 (Examples.newInvoke 7 "echo"))
       (mkMessage chokeType 7 []))
  = sessions Examples.w0.
Proof.
  apply (invoke_then_choke Examples.w0 (Examples.newInvoke 7 "echo") "echo"
           [] []); reflexivity.
Defined.

(** X4. Chunk frames reach the request streams in the order of arrival: after
    any sequence of chunk frames, for live and unknown sessions in any
    interleaving, each stream has been pushed exactly the frames of the
    sessions bound to it, in the order they came, and the session table is
    as it was. *)
Theorem chunks_in_order (msgs : list Message) :
  ∀ w : Worker,
  Forall (fun m => MsgType m = chunkType) msgs →
  sessions (foldl onMessage w msgs) = sessions w ∧
  tasks (foldl onMessage w msgs) = tasks w ∧
  ∀ r : nat,
    streams (foldl onMessage w msgs) !! r =
    (fun st => foldl (fun st m => req_push m st) st (frames_for w r msgs))
      <$> streams w !! r.
Proof.
  induction msgs as [|m msgs IH]; intros w Hall.
  - simpl. split; [done|]. split; [done|]. intros r.
    by destruct (streams w !! r).
  - apply Forall_cons in Hall as [Hm Hall]. simpl.
    destruct (IH (onMessage w m) Hall) as (Hs & Ht & Hstr).
    assert (Hstep :
      sessions (onMessage w m) = sessions w ∧
      tasks (onMessage w m) = tasks w ∧
      ∀ r, streams (onMessage w m) !! r =
           (if decide (sessions w !! Session m = Some r)
            then req_push m <$> streams w !! r else streams w !! r)).
    { unfold onMessage. rewrite Hm. simpl.
      destruct (sessions w !! Session m) as [r0|] eqn:Hr0; simpl.
      - split; [done|]. split; [done|]. intros r.
        rewrite list_lookup_alter. repeat case_decide; by simplify_eq.
      - split; [done|]. split; [done|]. intros r. try case_decide; done. }
    destruct Hstep as (Hs1 & Ht1 & Hstr1).
    split; [congruence|]. split; [congruence|]. intros r.
    rewrite Hstr, Hstr1. unfold frames_for. rewrite Hs1.
    rewrite filter_cons.
    destruct (decide (sessions w !! Session m = Some r)) as [Hr|Hr].
    + simpl. by destruct (streams w !! r).
    + done.
Qed.

Lemma chunks_in_order_witness :
  streams
    (foldl onMessage Examples.w7
       [newChunk 7 [Byte.x01]; newChunk 8 []; newChunk 7 [Byte.x02]])
    !! 0%nat
  = Some (mkRequest [newChunk 7 [Byte.x01]; newChunk 7 [Byte.x02]] false).
Proof.
  rewrite (proj2 (proj2 (chunks_in_order
             [newChunk 7 [Byte.x01]; newChunk 8 []; newChunk 7 [Byte.x02]]
             Examples.w7
             ltac:(repeat constructor)))).
  reflexivity.
Defined.

(** *** Stopping *)



(** What a frame that is not a terminate frame leaves alone. *)
Lemma onMessage_conn_stopped (w : Worker) (msg : Message) :
  MsgType msg ≠ terminateType →
  conn (onMessage w msg) = conn w ∧ stopped (onMessage w msg) = stopped w.
Proof.
  intros Hne. unfold onMessage.
  repeat case_decide; try done.
  - by destruct (sessions w !! Session msg).
  - by destruct (sessions w !! Session msg).
  - destruct (getEventName msg) as [event|]; [|done].
    simpl. by destruct (handlers w !! event).
Qed.

(** One event that is not a stopping one. *)
Lemma loop_step_quiet (w w1 : Worker) (err err1 : option error)
    (ev : event) :
  is_stopping ev = false →
  loop_step w err ev = Continue w1 err1 →
  stopped w1 = stopped w ∧ err1 = err ∧
  conn w1 = (if sock_closed (conn w) then conn w
             else mkSocket false (sock_written (conn w) ++ wire_of [ev])).
Proof.
  assert (Hid : ∀ c : socketIO,
    c = if sock_closed c then c
        else mkSocket false (sock_written c ++ [])).
  { intros [[] l]; simpl; [done | by rewrite app_nil_r]. }
  unfold is_stopping.
  destruct ev as [[msg|]| | | | | | |]; simpl; intros Hq H; try done.
  - inversion H; subst.
    apply bool_decide_eq_false in Hq.
    destruct (onMessage_conn_stopped w msg Hq) as [-> ->]. auto.
  - inversion H; subst. auto.
  - destruct (Timer_receive (heartbeatTimer w)); inversion H; subst. simpl.
    split; [done|]. split; [done|]. unfold send_or_drop.
    by destruct (sock_closed (conn w)).
  - inversion H; subst. simpl.
    split; [done|]. split; [done|]. unfold send_or_drop.
    by destruct (sock_closed (conn w)).
  - by destruct (stopped w).
  - destruct (Timer_expire (heartbeatTimer w)); inversion H; subst. simpl.
    auto.
  - destruct (Timer_expire (disownTimer w)); inversion H; subst. simpl. auto.
Qed.

Lemma wire_of_cons (ev : event) (evs : list event) :
  wire_of (ev :: evs) = wire_of [ev] ++ wire_of evs.
Proof. unfold wire_of. simpl. by rewrite app_nil_r. Qed.

Lemma loop_from_quiet (evs : list event) :
  ∀ (w w' : Worker) (err err' : option error),
  existsb is_stopping evs = false →
  loop_from w err evs = Running w' err' →
  stopped w' = stopped w ∧ err' = err ∧
  conn w' = (if sock_closed (conn w) then conn w
             else mkSocket false (sock_written (conn w) ++ wire_of evs)).
Proof.
  induction evs as [|ev evs IH]; intros w w' err err' Hq H; simpl in H.
  - inversion H; subst. simpl. rewrite app_nil_r.
    by destruct (conn w') as [[] wr].
  - simpl in Hq. apply orb_false_iff in Hq as [Hev Hevs].
    destruct (loop_step w err ev) as [w1 err1| |] eqn:Hstep; try done.
    destruct (loop_step_quiet _ _ _ _ _ Hev Hstep) as (Hs1 & He1 & Hc1).
    destruct (IH _ _ _ _ Hevs H) as (Hs & He & Hc).
    rewrite Hs, Hs1, He, He1, Hc, Hc1.
    destruct (sock_closed (conn w)) eqn:Hcl.
    + by rewrite Hcl.
    + cbn [sock_closed sock_written].
      by rewrite (wire_of_cons ev evs), app_assoc.
Qed.

(** The worker [Run] enters the loop with. *)
Lemma Run_start (hs : gmap string EventHandler) (w : Worker)
    (evs : list event) :
  Run hs w evs =
    loop_from (onHeartbeat (set_handlers (hs ∪ handlers w) w)) None evs.
Proof. unfold Run, loop. by rewrite register_all. Qed.

(** X6. What reaches the socket.  A worker made by [newWorker] on an open
    socket and run through events none of which is a stopping one (the
    disown case, a call of [Stop], a terminate frame) has handed to the
    socket the handshake, the first heartbeat, and then, in the order of the
    events, the frames received from handlers and one heartbeat for every
    fire of the heartbeat timer, and nothing else; it is not stopped and its
    exit error is nil.  Before the first heartbeat neither timer is armed. *)
Theorem Run_wire (c : socketIO) (i : string) (hs : gmap string EventHandler)
    (evs : list event) (w' : Worker) (err' : option error) :
  sock_closed c = false →
  existsb is_stopping evs = false →
  Run hs (newWorker c i) evs = Running w' err' →
  sock_written (conn w') =
    sock_written c ++ [newHandshake i; newHeartbeatMessage] ++ wire_of evs ∧
  sock_closed (conn w') = false ∧
  stopped w' = false ∧ err' = None ∧
  timer_armed (heartbeatTimer (newWorker c i)) = None ∧
  timer_armed (disownTimer (newWorker c i)) = None.
Proof.
  intros Hopen Hq Hrun. rewrite Run_start in Hrun.
  destruct (loop_from_quiet _ _ _ _ _ Hq Hrun) as (Hs & He & Hc).
  simpl in Hs, Hc. unfold send_or_drop in Hc. simpl in Hc.
  rewrite Hopen in Hc. simpl in Hc.
  rewrite Hc, Hs, He. simpl. by rewrite <- !app_assoc.
Qed.

Lemma Run_wire_witness :
  ∃ w' : Worker,
    Run ∅ Examples.w0
      [FromHandlers (newChunk 7 []); HeartbeatTimerExpired;
       HeartbeatTimerFired] = Running w' None ∧
    sock_written (conn w') =
      sock_written Examples.sock0 ++
      [newHandshake "uuid"; newHeartbeatMessage] ++
      wire_of [FromHandlers (newChunk 7 []); HeartbeatTimerExpired;
               HeartbeatTimerFired].
Proof.
  eexists. split; cycle 1.
  - eapply (Run_wire Examples.sock0 "uuid" ∅
              [FromHandlers (newChunk 7 []); HeartbeatTimerExpired;
               HeartbeatTimerFired]);
      [reflexivity | reflexivity | vm_compute; reflexivity].
  - reflexivity.
Defined.

(** X7. Only a stopping event ends a run: a worker that is not stopped and
    handles events none of which is the disown case, a call of [Stop] or a
    terminate frame does not return from [Run], whatever frames (corrupted
    invokes, frames for unknown sessions, frames of unknown type) it
    receives; it stays not stopped, with a nil exit error. *)
Theorem Run_keeps_running (hs : gmap string EventHandler) (w : Worker)
    (evs : list event) :
  stopped w = false →
  existsb is_stopping evs = false →
  (∀ e : option error, Run hs w evs ≠ Finished e) ∧
  (∀ (w' : Worker) (err' : option error),
     Run hs w evs = Running w' err' → stopped w' = false ∧ err' = None).
Proof.
  intros Hs Hq. rewrite Run_start. split.
  - intros e H.
    destruct (WorkerProps.loop_from_Finished _ _ _ _ H)
      as (pre & post & w' & -> & Hpre & Hst).
    rewrite existsb_app in Hq. apply orb_false_iff in Hq as [Hq _].
    destruct (loop_from_quiet _ _ _ _ _ Hq Hpre) as (Hs' & _ & _).
    simpl in Hs'. congruence.
  - intros w' err' H.
    destruct (loop_from_quiet _ _ _ _ _ Hq H) as (Hs' & He & _).
    simpl in Hs'. by rewrite Hs', He.
Qed.

Lemma Run_keeps_running_witness :
  Run Examples.hs0 Examples.w0
    [ConnRead (Some Examples.corrupted); ConnRead (Some (newChunk 8 []));
     ConnRead (Some (newError 1 0 "x")); ConnRead None; StoppedClosed]
  ≠ Finished None.
Proof.
  apply (proj1 (Run_keeps_running Examples.hs0 Examples.w0
                  [ConnRead (Some Examples.corrupted);
                   ConnRead (Some (newChunk 8 []));
                   ConnRead (Some (newError 1 0 "x")); ConnRead None;
                   StoppedClosed] eq_refl eq_refl)).
Defined.

(** *** After the worker has stopped *)

Lemma stop_closes_Stop (w : Worker) :
  stop_closes w →
  stop_closes (Stop w) ∧
  (sock_closed (conn w) = true →
   sock_closed (conn (Stop w)) = true ∧
   sock_written (conn (Stop w)) = sock_written (conn w)).
Proof.
  intros Hinv. unfold Stop, isStopped.
  destruct (stopped w) eqn:Hs; [done|].
  split; [|done]. by intros _.
Qed.

Lemma stop_closes_onMessage (w : Worker) (msg : Message) :
  stop_closes w →
  stop_closes (onMessage w msg) ∧
  (sock_closed (conn w) = true →
   sock_closed (conn (onMessage w msg)) = true ∧
   sock_written (conn (onMessage w msg)) = sock_written (conn w)).
Proof.
  intros Hinv.
  destruct (decide (MsgType msg = terminateType)) as [Ht|Ht].
  - rewrite (WorkerProps.onMessage_terminate w msg Ht).
    by apply stop_closes_Stop.
  - destruct (onMessage_conn_stopped w msg Ht) as [Hc Hs].
    unfold stop_closes. by rewrite Hc, Hs.
Qed.

Lemma stop_closes_send (w : Worker) (m : Message) :
  stop_closes w →
  stop_closes (set_conn (send_or_drop (conn w) m) w) ∧
  (sock_closed (conn w) = true →
   sock_closed (send_or_drop (conn w) m) = true ∧
   sock_written (send_or_drop (conn w) m) = sock_written (conn w)).
Proof.
  intros Hinv. unfold stop_closes, send_or_drop. simpl.
  destruct (sock_closed (conn w)) eqn:Hc; simpl.
  - by rewrite Hc.
  - split; [|done]. intros Hs. specialize (Hinv Hs). congruence.
Qed.

(** One event: the invariant is kept, and a closed socket stays closed and
    receives nothing. *)
Lemma loop_step_closed (w w1 : Worker) (err err1 : option error)
    (ev : event) :
  stop_closes w →
  loop_step w err ev = Continue w1 err1 →
  stop_closes w1 ∧
  (stopped w = true → stopped w1 = true) ∧
  (sock_closed (conn w) = true →
   sock_closed (conn w1) = true ∧
   sock_written (conn w1) = sock_written (conn w)).
Proof.
  intros Hinv Hstep.
  split; [|split;
    [exact (proj1 (proj2 (WorkerProps.loop_step_Continue _ _ _ _ _ Hstep)))|]];
  revert Hstep;
  destruct ev as [[msg|]| | | | | | |]; simpl; intros H;
    try (by inversion H; subst).
  - inversion H; subst. by apply stop_closes_onMessage.
  - destruct (Timer_receive (heartbeatTimer w)); inversion H; subst.
    apply (stop_closes_send (set_heartbeatTimer t w) newHeartbeatMessage
             Hinv).
  - destruct (Timer_receive (disownTimer w)); inversion H; subst.
    by apply (stop_closes_Stop (set_disownTimer t w)).
  - inversion H; subst. by apply stop_closes_send.
  - by destruct (stopped w).
  - by destruct (Timer_expire (heartbeatTimer w)); inversion H; subst.
  - by destruct (Timer_expire (disownTimer w)); inversion H; subst.
  - inversion H; subst. by apply stop_closes_Stop.
  - inversion H; subst. by apply stop_closes_onMessage.
  - destruct (Timer_receive (heartbeatTimer w)); inversion H; subst.
    apply (stop_closes_send (set_heartbeatTimer t w) newHeartbeatMessage
             Hinv).
  - destruct (Timer_receive (disownTimer w)); inversion H; subst.
    by apply (stop_closes_Stop (set_disownTimer t w)).
  - inversion H; subst. by apply stop_closes_send.
  - by destruct (stopped w).
  - by destruct (Timer_expire (heartbeatTimer w)); inversion H; subst.
  - by destruct (Timer_expire (disownTimer w)); inversion H; subst.
  - inversion H; subst. by apply stop_closes_Stop.
Qed.

Lemma loop_from_closed (evs : list event) :
  ∀ (w w' : Worker) (err err' : option error),
  stop_closes w →
  loop_from w err evs = Running w' err' →
  stop_closes w' ∧
  (stopped w = true → stopped w' = true) ∧
  (sock_closed (conn w) = true →
   sock_closed (conn w') = true ∧
   sock_written (conn w') = sock_written (conn w)).
Proof.
  induction evs as [|ev evs IH]; intros w w' err err' Hinv H; simpl in H.
  - by inversion H; subst.
  - destruct (loop_step w err ev) as [w1 err1| |] eqn:Hstep; try done.
    destruct (loop_step_closed _ _ _ _ _ Hinv Hstep) as (Hinv1 & Hs1 & Hc1).
    destruct (IH _ _ _ _ Hinv1 H) as (Hinv' & Hs' & Hc').
    split; [done|]. split; [auto|].
    intros Hc. destruct (Hc1 Hc) as [Hc2 Hw2].
    destruct (Hc' Hc2) as [Hc3 Hw3]. split; [done | congruence].
Qed.

(** X8. Once a worker made by [newWorker] has stopped, nothing more reaches
    the socket: whatever events follow (frames from handlers that are still
    running, fires of the heartbeat timer), what has been written stays as
    it is, and the worker stays stopped. *)
Theorem silent_after_stop (c : socketIO) (i : string)
    (hs : gmap string EventHandler) (pre post : list event)
    (w1 w2 : Worker) (err1 err2 : option error) :
  Run hs (newWorker c i) pre = Running w1 err1 →
  stopped w1 = true →
  Run hs (newWorker c i) (pre ++ post) = Running w2 err2 →
  sock_written (conn w2) = sock_written (conn w1) ∧
  sock_closed (conn w2) = true ∧
  stopped w2 = true.
Proof.
  rewrite !Run_start. intros Hpre Hs Hall.
  rewrite WorkerProps.loop_from_app, Hpre in Hall.
  assert (Hinv0 : stop_closes
            (onHeartbeat
               (set_handlers (hs ∪ handlers (newWorker c i))
                  (newWorker c i)))) by done.
  destruct (loop_from_closed _ _ _ _ _ Hinv0 Hpre) as (Hinv1 & _ & _).
  destruct (loop_from_closed _ _ _ _ _ Hinv1 Hall) as (_ & Hs2 & Hc2).
  destruct (Hc2 (Hinv1 Hs)) as [Hcl Hw]. auto.
Qed.

Lemma silent_after_stop_witness :
  ∃ w1 w2 : Worker,
    Run Examples.hs0 Examples.w0
      ([ExternalStop] ++
       [FromHandlers (newChoke 7); HeartbeatTimerExpired;
        HeartbeatTimerFired]) = Running w2 None ∧
    sock_written (conn w2) = sock_written (conn w1).
Proof.
  do 2 eexists. split; cycle 1.
  - eapply (silent_after_stop Examples.sock0 "uuid" Examples.hs0
              [ExternalStop]
              [FromHandlers (newChoke 7); HeartbeatTimerExpired;
               HeartbeatTimerFired]);
      [vm_compute; reflexivity | reflexivity | vm_compute; reflexivity].
  - reflexivity.
Defined.

(** *** The disown timer between heartbeats *)

Lemma onMessage_disown_idle (w : Worker) (msg : Message) :
  disown_idle w → disown_idle (onMessage w msg).
Proof.
  intros Hidle. unfold onMessage, onTerminate.
  repeat case_decide; try done.
  - by destruct (sessions w !! Session msg).
  - by destruct (sessions w !! Session msg).
  - destruct (getEventName msg) as [event|]; [|done].
    simpl. by destruct (handlers w !! event).
  - destruct Hidle as [_ Htick]. by split.
  - unfold disown_idle.
    by destruct (WorkerProps.Stop_timers w) as [_ ->].
Qed.

Lemma loop_step_disown_idle (w w1 : Worker) (err err1 : option error)
    (ev : event) :
  disown_idle w →
  is_heartbeat_fire ev = false →
  loop_step w err ev = Continue w1 err1 →
  disown_idle w1 ∧ is_disown ev = false ∧ err1 = err.
Proof.
  intros Hidle Hhb.
  destruct ev as [[msg|]| | | | | | |]; simpl; intros H; try done.
  - inversion H; subst. split; [|done]. by apply onMessage_disown_idle.
  - by inversion H; subst.
  - destruct Hidle as [_ Htick]. unfold Timer_receive in H.
    by rewrite Htick in H.
  - by inversion H; subst.
  - by destruct (stopped w).
  - by destruct (Timer_expire (heartbeatTimer w)); inversion H; subst.
  - destruct Hidle as [Harmed _]. unfold Timer_expire in H.
    by rewrite Harmed in H.
  - inversion H; subst. split; [|done]. unfold disown_idle.
    by destruct (WorkerProps.Stop_timers w) as [_ ->].
Qed.

Lemma loop_from_disown_idle (evs : list event) :
  ∀ (w w' : Worker) (err err' : option error),
  disown_idle w →
  existsb is_heartbeat_fire evs = false →
  loop_from w err evs = Running w' err' →
  disown_idle w' ∧ existsb is_disown evs = false ∧ err' = err.
Proof.
  induction evs as [|ev evs IH]; intros w w' err err' Hidle Hhb H;
    simpl in H.
  - by inversion H; subst.
  - simpl in Hhb. apply orb_false_iff in Hhb as [Hev Hevs].
    destruct (loop_step w err ev) as [w1 err1| |] eqn:Hstep; try done.
    destruct (loop_step_disown_idle _ _ _ _ _ Hidle Hev Hstep)
      as (Hidle1 & Hd1 & He1).
    destruct (IH _ _ _ _ Hidle1 Hevs H) as (Hidle' & Hd & He).
    simpl. rewrite Hd1, Hd. split; [done|]. split; [done | congruence].
Qed.

(** X9. A worker is disowned only while a heartbeat is outstanding.  Once
    the reply to a heartbeat has been handled before the disown timer
    expired, the disown case cannot be taken until the heartbeat timer
    fires again: in every run without a fire of the heartbeat timer the
    disown timer neither expires nor fires, and the exit error stays as it
    was. *)
Theorem no_disown_after_reply (w w' : Worker) (msg : Message)
    (evs : list event) (err err' : option error) :
  MsgType msg = heartbeatType →
  timer_tick (disownTimer w) = false →
  existsb is_heartbeat_fire evs = false →
  loop_from w err (ConnRead (Some msg) :: evs) = Running w' err' →
  existsb is_disown evs = false ∧
  err' = err ∧
  timer_armed (disownTimer w') = None ∧
  ¬ In DisownTimerExpired evs.
Proof.
  intros Ht Htick Hhb H. simpl in H.
  assert (Hidle : disown_idle (onMessage w msg)).
  { unfold onMessage. rewrite Ht. simpl. by split. }
  destruct (loop_from_disown_idle _ _ _ _ _ Hidle Hhb H)
    as ([Harmed _] & Hd & He).
  split; [done|]. split; [done|]. split; [done|].
  intros Hin. apply in_split in Hin as (pre & post & ->).
  rewrite WorkerProps.loop_from_app in H.
  destruct (loop_from (onMessage w msg) err pre) as [w1 err1| |] eqn:Hpre;
    try done.
  rewrite existsb_app in Hhb. apply orb_false_iff in Hhb as [Hhb1 _].
  destruct (loop_from_disown_idle _ _ _ _ _ Hidle Hhb1 Hpre)
    as ([Harmed1 _] & _ & _).
  simpl in H. unfold Timer_expire in H. by rewrite Harmed1 in H.
Qed.

Lemma no_disown_after_reply_witness :
  ∃ w' : Worker,
    loop_from (onHeartbeat Examples.w0) None
      (ConnRead (Some newHeartbeatMessage) ::
       [HeartbeatTimerExpired; FromHandlers (newChoke 7)])
    = Running w' None ∧
    timer_armed (disownTimer w') = None.
Proof.
  eexists. split; cycle 1.
  - eapply (no_disown_after_reply (onHeartbeat Examples.w0) _
              newHeartbeatMessage
              [HeartbeatTimerExpired; FromHandlers (newChoke 7)] None None);
      [reflexivity | reflexivity | reflexivity | vm_compute; reflexivity].
  - reflexivity.
Defined.

(** *** Goroutines and their streams *)

Lemma sessions_owned_onMessage (w : Worker) (msg : Message) :
  sessions_owned w → sessions_owned (onMessage w msg).
Proof.
  intros (Hlen & Hidx & Hsess).
  unfold onMessage, onTerminate, Stop, isStopped.
  repeat case_decide.
  - destruct (sessions w !! Session msg); [|done].
    split; [|done]. simpl. by rewrite length_alter.
  - destruct (sessions w !! Session msg); [|done].
    split; [simpl; by rewrite length_alter|]. split; [done|].
    intros s r Hs. simpl in Hs. apply lookup_delete_Some in Hs as [_ Hs].
    by apply Hsess.
  - destruct (getEventName msg) as [event|]; [|done].
    set (t := match handlers w !! event with
              | Some handler =>
                  HandlerTask event handler (length (streams w))
                    (newResponse (Session msg))
              | None =>
                  FallbackTask event (fallbackHandler w)
                    (length (streams w)) (newResponse (Session msg))
              end).
    assert (Ht : task_request t = length (streams w) ∧
                 task_response t = newResponse (Session msg)).
    { subst t. by destruct (handlers w !! event). }
    destruct Ht as [Htr Hts].
    assert (Hgoal : sessions_owned
      (set_tasks (tasks w ++ [t])
         (set_sessions (<[Session msg := length (streams w)]> (sessions w))
            (set_streams (streams w ++ [newRequest]) w)))).
    { split; [simpl; rewrite !length_app; simpl; lia|]. split.
      - intros j t' Hj. simpl in Hj.
        apply lookup_app_Some in Hj as [Hj | [Hge Hj]].
        + by apply Hidx.
        + destruct (j - length (tasks w))%nat as [|k] eqn:Hk;
            [|by destruct k].
          simpl in Hj. inversion Hj; subst t'. rewrite Htr. lia.
      - intros s r Hs. simpl in Hs |- *.
        destruct (decide (Session msg = s)) as [<-|Hne].
        + rewrite lookup_insert_eq in Hs. inversion Hs; subst r.
          exists t. split; [|done].
          rewrite <- Hlen. by rewrite lookup_app_r, Nat.sub_diag by lia.
        + rewrite lookup_insert_ne in Hs by done.
          destruct (Hsess s r Hs) as (t' & Ht' & Hr').
          exists t'. split; [|done]. by apply lookup_app_l_Some. }
    simpl. subst t. by destruct (handlers w !! event).
  - done.
  - by destruct (stopped w).
  - done.
Qed.

Lemma loop_step_sessions_owned (w w1 : Worker) (err err1 : option error)
    (ev : event) :
  sessions_owned w →
  loop_step w err ev = Continue w1 err1 → sessions_owned w1.
Proof.
  intros Hinv.
  assert (HStop : ∀ w0, sessions_owned w0 → sessions_owned (Stop w0)).
  { intros w0 H0. unfold Stop, isStopped. by destruct (stopped w0). }
  destruct ev as [[msg|]| | | | | | |]; simpl; intros H;
    try (by inversion H; subst).
  - inversion H; subst. by apply sessions_owned_onMessage.
  - by destruct (Timer_receive (heartbeatTimer w)); inversion H; subst.
  - destruct (Timer_receive (disownTimer w)); inversion H; subst.
    by apply (HStop (set_disownTimer t w)).
  - by destruct (stopped w).
  - by destruct (Timer_expire (heartbeatTimer w)); inversion H; subst.
  - by destruct (Timer_expire (disownTimer w)); inversion H; subst.
  - inversion H; subst. by apply HStop.
Qed.

Lemma loop_from_sessions_owned (evs : list event) :
  ∀ (w w' : Worker) (err err' : option error),
  sessions_owned w →
  loop_from w err evs = Running w' err' → sessions_owned w'.
Proof.
  induction evs as [|ev evs IH]; intros w w' err err' Hinv H; simpl in H.
  - by inversion H; subst.
  - destruct (loop_step w err ev) as [w1 err1| |] eqn:Hstep; try done.
    eapply IH; [|exact H]. eapply loop_step_sessions_owned; eauto.
Qed.

(** X10. Through every run of a worker made by [newWorker], goroutines and
    request streams go in pairs: there are as many of the one as of the
    other, the i-th goroutine reads the i-th stream, so no two goroutines
    share a request stream, and the stream a live session is bound to is
    read by a goroutine that answers on that very session. *)
Theorem sessions_owned_run (c : socketIO) (i : string)
    (hs : gmap string EventHandler) (evs : list event) (w' : Worker)
    (err' : option error) :
  Run hs (newWorker c i) evs = Running w' err' →
  length (tasks w') = length (streams w') ∧
  (∀ (j k : nat) (t u : task),
     tasks w' !! j = Some t → tasks w' !! k = Some u →
     task_request t = task_request u → j = k) ∧
  (∀ (s : N) (r : nat), sessions w' !! s = Some r →
     streams w' !! r ≠ None ∧
     ∃ t : task,
       tasks w' !! r = Some t ∧ task_request t = r ∧
       resp_session (task_response t) = s).
Proof.
  rewrite Run_start. intros Hrun.
  assert (Hinv0 : sessions_owned
            (onHeartbeat
               (set_handlers (hs ∪ handlers (newWorker c i))
                  (newWorker c i)))).
  { split; [done|]. split; [intros j t Hj; by simpl in Hj|].
    intros s r Hs. simpl in Hs. by rewrite lookup_empty in Hs. }
  destruct (loop_from_sessions_owned _ _ _ _ _ Hinv0 Hrun)
    as (Hlen & Hidx & Hsess).
  split; [done|]. split.
  - intros j k t u Hj Hk Heq.
    by rewrite <- (Hidx j t Hj), <- (Hidx k u Hk).
  - intros s r Hs. destruct (Hsess s r Hs) as (t & Ht & Hr).
    split.
    + apply lookup_lt_Some in Ht. rewrite Hlen in Ht.
      intros Hnone. apply lookup_ge_None in Hnone. lia.
    + exists t. split; [done|]. split; [by apply Hidx | by rewrite Hr].
Qed.

Lemma sessions_owned_run_witness :
  ∃ w' : Worker,
    Run Examples.hs0 Examples.w0
      [ConnRead (Some (Examples.newInvoke 7 "echo"));
       ConnRead (Some (Examples.newInvoke 5 "explode"))] = Running w' None ∧
    length (tasks w') = length (streams w').
Proof.
  eexists. split; cycle 1.
  - refine (proj1 (sessions_owned_run Examples.sock0 "uuid" Examples.hs0
                     [ConnRead (Some (Examples.newInvoke 7 "echo"));
                      ConnRead (Some (Examples.newInvoke 5 "explode"))]
                     _ None _)).
    vm_compute; reflexivity.
  - reflexivity.
Defined.

(** X11. The trap leaves a handler that returns alone: the goroutine ends
    normally and has sent exactly the frames the handler has sent, in the
    same order; the worker adds no frame of its own, so it closes no
    response stream on a handler's behalf. *)
Theorem returning_handler_untouched (t : task) (reads : list ReadResult)
    (r : response) (out : list Message) :
  exec (task_body t) reads (task_response t) = (Returned, r, out) →
  run_task t reads = (Exited, out).
Proof.
  intros Hexec. unfold run_task, recoverTrap. rewrite Hexec. simpl.
  by rewrite app_nil_r.
Qed.

Lemma returning_handler_untouched_witness :
  run_task (HandlerTask "echo" Examples.echo 0 (newResponse 7))
    [ReadData []]
  = (Exited, [newChunk 7 []; newChoke 7]).
Proof.
  apply (returning_handler_untouched
           (HandlerTask "echo" Examples.echo 0 (newResponse 7))
           [ReadData []] (mkResponse 7 true)).
  reflexivity.
Defined.

End WorkerExtra.

(** ** Further properties of the locator client *)

Module LocatorExtra.
Import Locator LocatorApi.

Section Decoder.

Variable Decode : list Byte.byte → decoded.

Lemma existsb_concat_false (pre : list (list item)) (msgs : list item) :
  existsb is_choke (concat (msgs :: pre)) = false →
  existsb is_choke msgs = false ∧ existsb is_choke (concat pre) = false.
Proof. simpl. rewrite existsb_app. apply orb_false_iff. Qed.

Lemma resolve_loop_stops (pre : list (list item)) :
  ∀ (st : resolve_state) (msgs : list item) (post : list (list item)),
  closed st = false →
  existsb is_choke (concat pre) = false →
  existsb is_choke msgs = true →
  resolve_loop Decode st (pre ++ msgs :: post) =
  resolve_loop Decode st (pre ++ [msgs]).
Proof.
  induction pre as [|b pre IH]; intros st msgs post Hcl Hpre Hk; simpl.
  - destruct (on_msgs Decode st msgs) as [st'|] eqn:Hm; [|done].
    apply LocatorProps.on_msgs_Some in Hm. subst st'. simpl.
    by rewrite Hk, orb_true_r.
  - apply existsb_concat_false in Hpre as [Hb Hpre].
    destruct (on_msgs Decode st b) as [st'|] eqn:Hm; [|done].
    apply LocatorProps.on_msgs_Some in Hm. subst st'. simpl.
    rewrite Hcl, Hb. simpl. apply IH; [|done..]. simpl. by rewrite Hcl, Hb.
Qed.

(** X12. [Resolve] reads no answer after the one that holds the choke:
    whatever the socket delivers later, the request sent, the result and the
    log are the same. *)
Theorem Resolve_stops_at_choke (name : string) (pre : list (list item))
    (msgs : list item) (post : list (list item)) :
  existsb is_choke (concat pre) = false →
  existsb is_choke msgs = true →
  Resolve Decode name (pre ++ msgs :: post) =
  Resolve Decode name (pre ++ [msgs]).
Proof.
  intros Hpre Hk. unfold Resolve. f_equal. by apply resolve_loop_stops.
Qed.

(** X13. The loop looks at [closed] only between two answers: a chunk frame
    that follows the choke within the same answer is still unpacked, and it
    is its record that [Resolve] yields. *)
Theorem chunk_after_choke_counts (name : string) (before : list item)
    (p q : list value) (chunk : list Byte.byte) :
  forallb chunk_ok before = true →
  Out_events Decode name
    [before ++ [mkItem CHOKE p; mkItem CHUNK (VBytes chunk :: q)]]
  = [ChanSend (set_success true (unpackchunk Decode chunk).1)].
Proof.
  intros Hok. unfold Out_events, Resolve. simpl.
  set (st0 := mkState (set_success false zero_ResolveResult) false []).
  set (items := before ++ [mkItem CHOKE p; mkItem CHUNK (VBytes chunk :: q)]).
  assert (Hitems : forallb chunk_ok items = true).
  { subst items. rewrite forallb_app, Hok. reflexivity. }
  destruct (LocatorProps.on_msgs_total Decode items st0 Hitems) as [st' Hm].
  rewrite Hm. apply LocatorProps.on_msgs_Some in Hm. subst st'.
  assert (Hk : existsb is_choke items = true).
  { subst items. rewrite existsb_app. simpl. apply orb_true_r. }
  assert (Hch : ∀ l, chunks_of (l ++ [mkItem CHOKE p;
                                      mkItem CHUNK (VBytes chunk :: q)])
                     = chunks_of l ++ [chunk]).
  { clear. induction l as [|it l IH]; [reflexivity|]. simpl.
    destruct (is_chunk it); [|apply IH].
    destruct (GetPayload it) as [|[| | |c] rest]; try apply IH.
    simpl. by rewrite IH. }
  simpl. rewrite Hk. simpl. subst items. by rewrite Hch, last_snoc.
Qed.

Lemma on_msgs_malformed (items : list item) :
  ∀ st : resolve_state,
  forallb chunk_ok items = false → on_msgs Decode st items = None.
Proof.
  induction items as [|it items IH]; intros st H; simpl in *; [done|].
  apply andb_false_iff in H.
  unfold on_item.
  destruct (decide (GetTypeID it = CHUNK)) as [Hc|Hc].
  - destruct (GetPayload it) as [|[| | |chunk] rest] eqn:Hp; try done.
    destruct (unpackchunk Decode chunk) as [res lg].
    apply IH. destruct H as [H|H]; [|done].
    unfold chunk_ok, is_chunk in H.
    by rewrite (bool_decide_eq_true_2 _ Hc), Hp in H.
  - assert (Hok : chunk_ok it = true).
    { unfold chunk_ok, is_chunk. by rewrite (bool_decide_eq_false_2 _ Hc). }
    destruct H as [H|H]; [congruence|].
    destruct (decide (GetTypeID it = CHOKE)); by apply IH.
Qed.

(** X14. A chunk frame whose payload does not start with bytes (an empty
    payload, or another kind of value) among the items [Resolve] handles
    makes the goroutine panic outside the recover of [unpackchunk]: nothing
    is sent on the channel. *)
Theorem malformed_chunk_kills (name : string) (answers : list (list item)) :
  forallb chunk_ok (handled answers) = false →
  (∃ log, (Resolve Decode name answers).2 = Died log) ∧
  Out_events Decode name answers = [].
Proof.
  intros Hbad.
  assert (Hdied : ∀ st, closed st = false →
            ∃ log, resolve_loop Decode st answers = Died log).
  { revert Hbad. induction answers as [|msgs answers IH]; intros Hbad st Hcl;
      simpl in Hbad; [done|]. simpl.
    destruct (existsb is_choke msgs) eqn:Hk.
    - rewrite (on_msgs_malformed msgs st Hbad). by eexists.
    - rewrite forallb_app in Hbad.
      destruct (forallb chunk_ok msgs) eqn:Hok.
      + destruct (LocatorProps.on_msgs_total Decode msgs st Hok)
          as [st' Hm].
        rewrite Hm. apply LocatorProps.on_msgs_Some in Hm. subst st'.
        simpl. rewrite Hcl, Hk. simpl.
        apply IH; [exact Hbad | simpl; by rewrite Hcl, Hk].
      + rewrite (on_msgs_malformed msgs st Hok). by eexists. }
  destruct (Hdied (mkState (set_success false zero_ResolveResult) false [])
              eq_refl) as [log Hlog].
  unfold Out_events, Resolve. simpl. rewrite Hlog. split; [by exists log|done].
Qed.

End Decoder.

Lemma Resolve_stops_at_choke_witness :
  Resolve Examples.decode_svc "svc"
    ([[Examples.chunk_item [Byte.x01]]] ++ [Examples.choke_item] ::
     [[Examples.chunk_item [Byte.x02]]])
  = Resolve Examples.decode_svc "svc"
      ([[Examples.chunk_item [Byte.x01]]] ++ [[Examples.choke_item]]).
Proof.
  apply (Resolve_stops_at_choke Examples.decode_svc "svc"
           [[Examples.chunk_item [Byte.x01]]] [Examples.choke_item]
           [[Examples.chunk_item [Byte.x02]]]); reflexivity.
Defined.

Lemma chunk_after_choke_counts_witness :
  Out_events Examples.decode_svc "svc"
    [[Examples.chunk_item [Byte.x01]] ++
     [mkItem CHOKE []; mkItem CHUNK [VBytes [Byte.x02]]]]
  = [ChanSend
       (set_success true
          (unpackchunk Examples.decode_svc [Byte.x02]).1)].
Proof.
  apply (chunk_after_choke_counts Examples.decode_svc "svc"
           [Examples.chunk_item [Byte.x01]] [] [] [Byte.x02]).
  reflexivity.
Defined.

Lemma malformed_chunk_kills_witness :
  Out_events Examples.decode_svc "svc"
    [[mkItem CHUNK []; Examples.choke_item]] = [].
Proof.
  apply (malformed_chunk_kills Examples.decode_svc "svc"
           [[mkItem CHUNK []; Examples.choke_item]]).
  reflexivity.
Defined.

(** *** Endpoints *)

Lemma pretty_N_go_no_colon (x : N) :
  ∀ s : string, has_colon s = false → has_colon (pretty_N_go x s) = false.
Proof.
  induction (N.lt_wf_0 x) as [x _ IH]; intros s Hs.
  assert (x = 0 ∨ 0 < x)%N as [->|Hpos] by lia.
  - by rewrite pretty_N_go_0.
  - rewrite pretty_N_go_step by done. apply IH.
    + by apply N.div_lt.
    + simpl. rewrite Hs, orb_false_r. apply bool_decide_eq_false_2.
      unfold pretty_N_char. by repeat case_match.
Qed.

Lemma pretty_Z_no_colon (z : Z) : has_colon (pretty z) = false.
Proof.
  assert (HN : ∀ n : N, has_colon (pretty n) = false).
  { intros n. unfold pretty, pretty_N. case_decide; [done|].
    by apply pretty_N_go_no_colon. }
  destruct z as [|p|p]; [done | apply HN |].
  change (has_colon (String "-" (pretty (N.pos p))) = false).
  simpl. apply HN.
Qed.

(** Splitting at the last colon. *)
Lemma split_last_colon (s1 : string) :
  ∀ s2 t1 t2 : string,
  has_colon t1 = false → has_colon t2 = false →
  String.append s1 (String ":" t1) = String.append s2 (String ":" t2) →
  s1 = s2 ∧ t1 = t2.
Proof.
  assert (Hcolon : ∀ s t, has_colon (String.append s (String ":" t)) = true).
  { induction s as [|c s IH]; intros t.
    - reflexivity.
    - change (has_colon (String c (String.append s (String ":" t))) = true).
      simpl. rewrite IH. apply orb_true_r. }
  induction s1 as [|c s1 IH]; intros [|c' s2] t1 t2 H1 H2 Heq.
  - by inversion Heq.
  - change (String ":" t1 = String c' (String.append s2 (String ":" t2)))
      in Heq.
    inversion Heq; subst. by rewrite Hcolon in H1.
  - change (String c (String.append s1 (String ":" t1)) = String ":" t2)
      in Heq.
    inversion Heq; subst. by rewrite Hcolon in H2.
  - change (String c (String.append s1 (String ":" t1))
            = String c' (String.append s2 (String ":" t2))) in Heq.
    inversion Heq; subst.
    destruct (IH s2 t1 t2 H1 H2) as [-> ->]; done.
Qed.

(** X15. [AsString] tells endpoints apart: two endpoints with the same
    string have the same host and the same port, also when a host holds
    colons itself. *)
Theorem AsString_inj (e1 e2 : Endpoint) :
  AsString e1 = AsString e2 → e1 = e2.
Proof.
  destruct e1 as [h1 p1], e2 as [h2 p2]. unfold AsString. simpl.
  intros Heq.
  destruct (split_last_colon h1 h2 (pretty p1) (pretty p2)
              (pretty_Z_no_colon p1) (pretty_Z_no_colon p2) Heq)
    as [-> Hp].
  by apply (inj pretty) in Hp as ->.
Qed.

Lemma AsString_inj_witness :
  mkEndpoint "localhost" DEFAULT_LOCATOR_PORT = mkEndpoint "localhost" 10053.
Proof.
  apply (AsString_inj (mkEndpoint "localhost" DEFAULT_LOCATOR_PORT)
           (mkEndpoint "localhost" 10053)).
  reflexivity.
Defined.

(** X16. [NewLocator] connects over tcp with a timeout of five seconds, to
    its argument when it is given exactly one argument and that is a
    string, and in every other case (no argument, an argument that is not a
    string, two arguments or more) to localhost:10053, the host localhost
    at [DEFAULT_LOCATOR_PORT]; an error of the connection is returned as it
    is. *)
Theorem NewLocator_endpoint (ASocket socket_error : Type)
    (NewASocket : string → string → Worker.Duration → ASocket + socket_error)
    (args : list value) :
  NewLocator ASocket socket_error NewASocket args =
    NewASocket "tcp" (locator_endpoint args) (5 * 1000000000) ∧
  (∀ e : string, locator_endpoint [VStr e] = e) ∧
  ((∀ e : string, args ≠ [VStr e]) →
   locator_endpoint args =
     AsString (mkEndpoint "localhost" DEFAULT_LOCATOR_PORT)).
Proof.
  split; [|split].
  - unfold NewLocator.
    by destruct (NewASocket "tcp" (locator_endpoint args) _).
  - done.
  - intros Hne. unfold locator_endpoint.
    destruct args as [|v [|v' args]]; simpl; try done.
    destruct v as [| | e |]; try done. by destruct (Hne e).
Qed.

Lemma NewLocator_endpoint_witness :
  locator_endpoint [VStr "a:1"; VStr "b:2"] =
    AsString (mkEndpoint "localhost" DEFAULT_LOCATOR_PORT).
Proof.
  apply (NewLocator_endpoint unit unit (fun _ _ _ => inl tt)
           [VStr "a:1"; VStr "b:2"]).
  intros e H. discriminate H.
Defined.

End LocatorExtra.
